(** * cordova-lib plugman: fetching a plugin, and the android install/uninstall pair

    A shallow embedding of [src/cordova-lib/src/plugman/fetch.js]
    ([fetchPlugin], [checkID], [loadLocalPlugins], [copyPlugin]) over an
    explicit model of the directory tree the code works on, followed by a
    model of the platform handler exercised by
    [src/test/android-two-uninstall.js].

    Conventions
    - JavaScript strings are [string]s over 8-bit characters.
    - A path is the list of its components; the process's working directory
      is taken as the root, so ["a/b"] and ["/a/b"] name the same entry.
    - A promise is the value it settles to ([Fulfilled] or [Rejected]); an
      exception thrown inside a [then] callback is a rejection.
    - The module-level variable [localPlugins], the directory tree, the
      [.fetch.json] records and the list of collaborator calls form the
      [State] threaded through every function.  The tree holds every entry
      but the [.fetch.json] files, which are kept apart, by directory.
    - [events.emit] only informs observers and is left out.

    Where the libraries the code calls do more than the model says, the
    statements below say on which inputs they are made:
    - [Url.verbatim] singles out the references [url.parse] reads as they
      are written, nothing trimmed and nothing escaped;
    - [Js.inherited] singles out the names a lookup in the index of local
      plugins finds although no plugin carries them;
    - [Fs.linkless] singles out the trees without symbolic links, on which
      [shell.rm], [shell.mkdir] and [shell.cp] do what [Fs.rm_rf],
      [Fs.mkdir_p] and [Fs.cp_R] say; what the code does to a final
      directory that is a link, or through a link it has just made, is
      stated for the link itself only;
    - [ready] singles out the calls whose [plugins_dir], written component by
      component, is a directory or can be made one, in a tree without
      symbolic links: line 44 then does what [entered] says. *)

From stdpp Require Import gmap strings list fin_maps.
From Stdlib Require Import Ascii String ZArith Lia.

Open Scope list_scope.

(** ** JavaScript strings *)

Module Js.

(** [s.indexOf(c)] for a one-character needle: [-1] when absent. *)
Fixpoint indexOf (c : ascii) (s : string) : Z :=
  match s with
  | EmptyString => (-1)%Z
  | String a s' =>
      if Ascii.eqb a c then 0%Z
      else let i := indexOf c s' in if (i <? 0)%Z then (-1)%Z else (i + 1)%Z
  end.

(** [s.substring(0, e)]: a negative [e] counts as [0], an [e] past the end
    as the length. *)
Definition substring0 (e : Z) (s : string) : string :=
  String.substring 0 (Z.to_nat e) s.

(** [s.split(sep)] for a one-character separator. *)
Fixpoint split (sep : ascii) (s : string) : list string :=
  match s with
  | EmptyString => [EmptyString]
  | String a s' =>
      if Ascii.eqb a sep then EmptyString :: split sep s'
      else match split sep s' with
           | [] => [String a EmptyString]
           | w :: ws => String a w :: ws
           end
  end.

(** Truthiness of a value that is [undefined] or a string. *)
Definition truthy (v : option string) : bool :=
  match v with
  | Some (String _ _) => true
  | _ => false
  end.

(** [v || d] for such a value. *)
Definition or_default (v : option string) (d : string) : string :=
  match v with
  | Some (String a s) => String a s
  | _ => d
  end.

(** Longest prefix of [s] whose characters satisfy [p], and the rest. *)
Fixpoint span (p : ascii → bool) (s : string) : string * string :=
  match s with
  | EmptyString => (EmptyString, EmptyString)
  | String a s' =>
      if p a then let '(l, r) := span p s' in (String a l, r)
      else (EmptyString, s)
  end.

Definition in_range (lo hi c : ascii) : bool :=
  (nat_of_ascii lo <=? nat_of_ascii c)%nat && (nat_of_ascii c <=? nat_of_ascii hi)%nat.

Definition is_lower (c : ascii) : bool := in_range "a" "z" c.
Definition is_upper (c : ascii) : bool := in_range "A" "Z" c.
Definition is_digit (c : ascii) : bool := in_range "0" "9" c.

(** The class [\w]. *)
Definition is_word (c : ascii) : bool :=
  is_lower c || is_upper c || is_digit c || Ascii.eqb c "_".

Definition lower (c : ascii) : ascii :=
  if is_upper c then ascii_of_nat (nat_of_ascii c + 32) else c.

Fixpoint toLowerCase (s : string) : string :=
  match s with
  | EmptyString => EmptyString
  | String a s' => String (lower a) (toLowerCase s')
  end.

(** What [.] refuses in a regular expression (line terminators). *)
Definition is_line_terminator (c : ascii) : bool :=
  Ascii.eqb c "010" || Ascii.eqb c "013".

Fixpoint has_line_terminator (s : string) : bool :=
  match s with
  | EmptyString => false
  | String a s' => is_line_terminator a || has_line_terminator s'
  end.

(** The names every object inherits from [Object.prototype]: [o[k]] is
    truthy for each of them on an object that has no such key of its own. *)
Definition object_prototype : list string :=
  ["constructor"; "toString"; "toLocaleString"; "valueOf"; "hasOwnProperty";
   "isPrototypeOf"; "propertyIsEnumerable"; "__proto__"; "__defineGetter__";
   "__defineSetter__"; "__lookupGetter__"; "__lookupSetter__"].

Definition inherited (k : string) : bool :=
  existsb (String.eqb k) object_prototype.

End Js.

(** ** Node's [url.parse], the two fields [fetchPlugin] reads

    Node first trims the string, then reads [protocol], the lower-cased
    match of [/^([a-z0-9.+-]+:)/i], and [hash], the part from the first ['#']
    on, in which it percent-escapes some characters unless the protocol is
    [javascript:].  Which characters are trimmed and escaped has changed
    between versions of Node; the model trims and escapes those that Node
    0.10 and every later version do:
    - trimmed at both ends: tab, line feed, form feed, carriage return,
      blank and no-break space;
    - escaped: tab, line feed, carriage return, blank and the five
      characters double quote, single quote, less-than, greater-than and
      back quote.
    [verbatim] holds of the references made of letters, digits and the
    seven characters [- . _ : / # @], which [parse] reads as they are
    written. *)

Module Url.

Record t := mk { protocol : option string; hash : option string }.

Definition code_in (codes : list nat) (c : ascii) : bool :=
  existsb (Nat.eqb (nat_of_ascii c)) codes.

Definition is_space : ascii → bool := code_in [9; 10; 12; 13; 32; 160]%nat.

Fixpoint trimStart (s : string) : string :=
  match s with
  | EmptyString => EmptyString
  | String a s' => if is_space a then trimStart s' else s
  end.

Fixpoint trimEnd (s : string) : string :=
  match s with
  | EmptyString => EmptyString
  | String a s' =>
      match trimEnd s' with
      | EmptyString => if is_space a then EmptyString else String a EmptyString
      | r => String a r
      end
  end.

(** [s.trim()]. *)
Definition trim (s : string) : string := trimEnd (trimStart s).

Definition hex_digit (n : nat) : ascii :=
  nth n (list_ascii_of_string "0123456789ABCDEF") "0"%char.

(** [%XX], as [encodeURIComponent] and [escape] write one character. *)
Definition percent (c : ascii) : string :=
  String "%" (String (hex_digit (nat_of_ascii c / 16))
             (String (hex_digit (nat_of_ascii c mod 16)) EmptyString)).

Definition auto_escaped : ascii → bool := code_in [9; 10; 13; 32; 34; 39; 60; 62; 96]%nat.

Fixpoint escape (s : string) : string :=
  match s with
  | EmptyString => EmptyString
  | String a s' =>
      if auto_escaped a then percent a +:+ escape s' else String a (escape s')
  end.

Definition verbatim_char (c : ascii) : bool :=
  Js.is_lower c || Js.is_upper c || Js.is_digit c
  || existsb (Ascii.eqb c) (list_ascii_of_string "-._:/#@").

Fixpoint verbatim (s : string) : bool :=
  match s with
  | EmptyString => true
  | String a s' => verbatim_char a && verbatim s'
  end.

Definition is_scheme_char (c : ascii) : bool :=
  Js.is_lower c || Js.is_upper c || Js.is_digit c
  || Ascii.eqb c "." || Ascii.eqb c "+" || Ascii.eqb c "-".

Definition protocol_of (s : string) : option string :=
  match Js.span is_scheme_char s with
  | (String a p, String ":" _) => Some (Js.toLowerCase (String a p) +:+ ":")
  | _ => None
  end.

Fixpoint hash_of (s : string) : option string :=
  match s with
  | EmptyString => None
  | String a s' => if Ascii.eqb a "#" then Some s else hash_of s'
  end.

Definition unsafe_protocol (p : option string) : bool :=
  match p with
  | Some q => String.eqb q "javascript:"
  | None => false
  end.

Definition parse (s : string) : t :=
  let s := trim s in
  let p := protocol_of s in
  {| protocol := p;
     hash := (if unsafe_protocol p then λ h, h else escape) <$> hash_of s |}.

End Url.

(** ** The two regular expressions of [fetchPlugin] *)

(** [uri.hash.match(re)] for the fragment pattern, which reads, with blanks
    between its parts, [^  #  ( [^:]* )  (?:  :  \/?  ( .*? )  \/?  )?  $].

    The result is [None] when the match fails, and otherwise the pair
    [(result[1], result[2])], with [result[2] = None] when the optional group
    did not take part.

    - the string starts with ['#'];
    - group 1 is greedy and takes everything up to the first [':'] (a shorter
      run would leave a character that is neither [':'] nor the end);
    - without a [':'] the optional group is skipped and [$] holds;
    - after the [':'], the first [\/?] takes a leading ['/'] when there is
      one, the lazy group 2 grows until what is left is empty or one ['/'], so
      that the last [\/?] takes exactly one final ['/']; [.] refuses line
      terminators, and no other split of the tail avoids one. *)
Definition strip_leading_slash (s : string) : string :=
  match s with
  | String "/" s' => s'
  | _ => s
  end.

Fixpoint strip_trailing_slash (s : string) : string :=
  match s with
  | EmptyString => EmptyString
  | String "/" EmptyString => EmptyString
  | String a s' => String a (strip_trailing_slash s')
  end.

Definition hash_match (h : string) : option (string * option string) :=
  match h with
  | String "#" rest =>
      match Js.span (fun c => negb (Ascii.eqb c ":")) rest with
      | (g1, EmptyString) => Some (g1, None)
      | (g1, String _ tail) =>
          if Js.has_line_terminator tail then None
          else Some (g1, Some (strip_trailing_slash (strip_leading_slash tail)))
      end
  | _ => None
  end.

(** [plugin_src.match(re)] for the pattern [^ \w+ : \\], a drive-letter path
    such as [D:\plugins]. *)
Definition drive_path_match (s : string) : bool :=
  match Js.span Js.is_word s with
  | (String _ _, String ":" (String "\" _)) => true
  | _ => false
  end.

(** ** Paths *)

Abbreviation path := (list string).

Module Path.

(** One step of [path.normalize] over the components met so far, kept in
    reverse: empty and ["."] components vanish, [".."] leaves the directory
    reached (the root is its own parent). *)
Definition step (acc : list string) (c : string) : list string :=
  if decide (c = "" ∨ c = ".") then acc
  else if decide (c = "..") then tail acc
  else c :: acc.

Definition normalize (cs : list string) : path := reverse (foldl step [] cs).

Definition components (s : string) : list string := Js.split "/" s.


(** The entry a path string names. *)
Definition of_string (s : string) : path := normalize (components s).

(** [path.join(a, b)]. *)
Definition join (a b : string) : path := normalize (components a ++ components b).

End Path.

(** ** The directory tree *)

Inductive content :=
  | Manifest (id version : string)   (* a plugin.xml, by the two attributes read *)
  | Data (bytes : string).

Inductive node :=
  | Dir
  | File (c : content)
  | Link (target : path).

Global Instance content_eq_dec : EqDecision content.
Proof. solve_decision. Defined.

Global Instance node_eq_dec : EqDecision node.
Proof. solve_decision. Defined.

Module Fs.

Definition is_link (n : node) : bool :=
  match n with
  | Link _ => true
  | _ => false
  end.

(** A tree without symbolic links. *)
Definition linkless (t : gmap path node) : bool :=
  forallb (λ kn, negb (is_link kn.2)) (map_to_list t).

(** The directory a path stands for: a symbolic link stands for its target.
    Links are followed at the directory handed to an operation; links met
    further up a path, and links to links, are outside the model. *)
Definition target (t : gmap path node) (d : path) : path :=
  match t !! d with
  | Some (Link d') => d'
  | _ => d
  end.

(** [fs.existsSync(p)]; the working directory always exists. *)
Definition existsSync (t : gmap path node) (p : path) : bool :=
  match target t p with
  | [] => true
  | q => bool_decide (is_Some (t !! q))
  end.

(** [shell.rm('-rf', d)] on a [d] that is not a symbolic link: [d] and
    whatever lies below it go.  (Through a link at [d] shelljs empties the
    directory linked to and leaves the link.) *)
Definition rm_rf (d : path) (t : gmap path node) : gmap path node :=
  filter (λ kn, ¬ d `prefix_of` kn.1) t.

(** The non-empty prefixes of a path, longest last. *)
Fixpoint ancestors_and_self (d : path) : list path :=
  match d with
  | [] => []
  | c :: d' => [c] :: ((c ::.) <$> ancestors_and_self d')
  end.

(** [shell.mkdir('-p', d)] where no file is in the way: every missing
    directory on the way to [d], and [d] itself, is created; what exists is
    left alone. *)
Definition mkdir_p (d : path) (t : gmap path node) : gmap path node :=
  t ∪ list_to_map ((λ q, (q, Dir)) <$> ancestors_and_self d).


(** The part of [k] below [d], when [k] lies strictly below [d] and its
    first component there is not hidden: what the glob [d/*] and the
    recursion of [cp -R] reach. *)
Definition hidden (c : string) : bool :=
  match c with
  | String "." _ => true
  | _ => false
  end.

Fixpoint below (d k : path) : option path :=
  match d, k with
  | [], c :: rest => if hidden c then None else Some (c :: rest)
  | a :: d', b :: k' => if decide (a = b) then below d' k' else None
  | _, _ => None
  end.

(** [shell.cp('-R', path.join(src, '*'), dest)]: a copy of every entry
    reached, under the same relative name below [dest]. *)
Definition copied (src dest : path) (t : gmap path node) : gmap path node :=
  list_to_map (omap (λ kn, (λ rest, (dest ++ rest, kn.2)) <$> below src kn.1)
                    (map_to_list t)).

Definition cp_R (src dest : path) (t : gmap path node) : gmap path node :=
  copied (target t src) dest t ∪ t.

(** [fs.symlinkSync(src, dest, 'dir')] where nothing is at [dest] and the
    directory above it exists: the link is made, whether or not it leads
    anywhere.  The model keeps the source it was given as the target. *)
Definition symlinkSync (src dest : path) (t : gmap path node) : gmap path node :=
  <[dest := Link src]> t.

End Fs.

(** Two paths neither of which lies at or below the other. *)
Definition apart (a b : path) : Prop := ¬ a `prefix_of` b ∧ ¬ b `prefix_of` a.

Global Instance apart_dec (a b : path) : Decision (apart a b).
Proof. unfold apart. apply _. Defined.

(** In [t], [dest] is a directory holding a copy of what [shell.cp] reaches
    below the directory [d] of [t0], and nothing else. *)
Definition copy_of (t0 : gmap path node) (d dest : path) (t : gmap path node) : Prop :=
  ∀ k, dest `prefix_of` k →
    t !! k = if decide (k = dest) then Some Dir
             else Fs.below dest k ≫= λ rest, t0 !! (d ++ rest).

(** ** Plugin descriptors, provenance records, options, errors *)

Record PluginInfo := mkPluginInfo {
  id : string;
  version : string;
  dir : path;
}.

Global Instance PluginInfo_eq_dec : EqDecision PluginInfo.
Proof. solve_decision. Defined.

(** Modelled from the spec: the constructor [PluginInfo.PluginInfo(dir)] of
    [../PluginInfo], which reads the descriptor [plugin.xml] of [dir] and
    throws when there is none. *)
Definition new_PluginInfo (t : gmap path node) (d : path) : option PluginInfo :=
  match t !! (Fs.target t d ++ ["plugin.xml"]) with
  | Some (File (Manifest i v)) => Some (mkPluginInfo i v d)
  | _ => None
  end.

(** The [source] object handed to [metadata.save_fetch_metadata]:
    [{type: 'git', url, subdir, ref}] or [{type: 'local', path}]. *)
Inductive source :=
  | SourceGit (url : string) (subdir : string) (ref : option string)
  | SourceLocal (path : path).

(** The source types a provenance record may name; the code writes the
    first two. *)
Inductive source_type := TypeGit | TypeLocal | TypeRegistry.

Definition type_of (s : source) : source_type :=
  match s with
  | SourceGit _ _ _ => TypeGit
  | SourceLocal _ => TypeLocal
  end.

(** [options.searchpath]: absent, one string, or an array. *)
Inductive searchpath_value :=
  | SearchpathAbsent
  | SearchpathString (s : string)
  | SearchpathArray (l : list string).

Record Options := mkOptions {
  link : bool;
  subdir : option string;
  git_ref : option string;
  searchpath : searchpath_value;
  noregistry : bool;
  expected_id : option string;
  client : option string;
  plugin_src_dir : option path;
}.

Definition no_options : Options :=
  mkOptions false None None SearchpathAbsent false None None None.

Definition set_subdir (v : option string) (o : Options) : Options :=
  mkOptions (link o) v (git_ref o) (searchpath o) (noregistry o)
            (expected_id o) (client o) (plugin_src_dir o).

Definition set_git_ref (v : option string) (o : Options) : Options :=
  mkOptions (link o) (subdir o) v (searchpath o) (noregistry o)
            (expected_id o) (client o) (plugin_src_dir o).

Definition set_searchpath (v : searchpath_value) (o : Options) : Options :=
  mkOptions (link o) (subdir o) (git_ref o) v (noregistry o)
            (expected_id o) (client o) (plugin_src_dir o).

Definition set_plugin_src_dir (v : option path) (o : Options) : Options :=
  mkOptions (link o) (subdir o) (git_ref o) (searchpath o) (noregistry o)
            (expected_id o) (client o) v.

Definition dq : string := String "034" EmptyString.

Inductive error :=
  | CordovaError (msg : string)
  | Error (msg : string)
  | TypeError
  | DescriptorError (d : path)
  | CollaboratorError (msg : string).

Inductive outcome :=
  | Fulfilled (d : path)
  | Rejected (e : error).

Inductive call :=
  | CallClone (url plugins_dir : string)
  | CallRegistry (ids : list string).

(** The state a call works on.  [localPlugins] is the module-level cache,
    [None] while it is [null]; its keys are the identifiers of the plugins
    put into it. *)
Record State := mkState {
  tree : gmap path node;
  localPlugins : option (gmap string PluginInfo);
  fetch_json : gmap path source;
  calls : list call;
}.

Definition set_tree (t : gmap path node) (st : State) : State :=
  mkState t (localPlugins st) (fetch_json st) (calls st).

Definition set_localPlugins (v : option (gmap string PluginInfo)) (st : State) : State :=
  mkState (tree st) v (fetch_json st) (calls st).

Definition add_call (c : call) (st : State) : State :=
  mkState (tree st) (localPlugins st) (fetch_json st) (calls st ++ [c]).

(** Modelled from the spec: [metadata.save_fetch_metadata(dir, data)] of
    [./util/metadata], which persists the provenance record beside the
    directory; it is kept by directory. *)
Definition save_fetch_metadata (d : path) (data : source) (st : State) : State :=
  mkState (tree st) (localPlugins st) (<[d := data]> (fetch_json st)) (calls st).


(** The collaborators that are not part of these sources, as parameters:
    [registry.fetch(ids, client)], [plugins.clonePluginGit(url, plugins_dir,
    options)] and [PluginInfo.loadPluginsDir(dir)].  The first two work on
    the directory tree and settle to a directory or an error; they are taken
    to read the options they are handed and not to write them. *)
Record Collaborators := mkCollaborators {
  registry_fetch : list string → option string → gmap path node → gmap path node * outcome;
  clonePluginGit : string → string → Options → gmap path node → gmap path node * outcome;
  loadPluginsDir : gmap path node → string → list PluginInfo;
}.

(** ** fetch.js *)

Section Fetch.

Variable w : Collaborators.

(** The errors of lines 76, 115 and 149. *)
Definition link_unsupported : error :=
  CordovaError "--link is not supported for git URLs".

Definition not_found_locally (plugin_src : string) : error :=
  CordovaError ("Plugin " +:+ plugin_src +:+ " not found locally. "
                +:+ "Note, plugin registry was disabled by --noregistry flag.").

Definition identity_mismatch (expected got : string) : error :=
  Error ("Expected fetched plugin to have ID " +:+ dq +:+ expected
         +:+ dq +:+ " but got " +:+ dq +:+ got +:+ dq +:+ ".").

(** Modelled from the spec: [new PluginInfo(dir)] reads the descriptor of
    the directory it is handed; handed [undefined] it has no directory to
    join ['plugin.xml'] to, and what [copyPlugin(undefined, ...)] throws is
    the [TypeError] of [path.join]. *)
Definition undefined_directory : error := TypeError.

(** [checkID(expected_id, dir)]: [None] when it returns, [Some e] when it
    throws [e]. *)
Definition checkID (expected_id : option string) (d : path) (st : State) : option error :=
  if negb (Js.truthy expected_id) then None
  else
    let expected := Js.or_default expected_id "" in
    match new_PluginInfo (tree st) d with
    | None => Some (DescriptorError d)
    | Some pinfo =>
        let got :=
          if (1 <? List.length (Js.split "@" expected))%nat
          then id pinfo +:+ "@" +:+ version pinfo
          else id pinfo in
        if decide (expected = got) then None
        else Some (identity_mismatch expected got)
    end.

(** The two nested [forEach] loops of [loadLocalPlugins]. *)
Definition index_plugins (t : gmap path node) (search : list string)
    : gmap string PluginInfo :=
  foldl (λ m d, foldl (λ m p, <[id p := p]> m) m (loadPluginsDir w t d)) ∅ search.

(** [loadLocalPlugins(searchpath)]. *)
Definition loadLocalPlugins (search : list string) (st : State) : State :=
  match localPlugins st with
  | Some _ => st
  | None => set_localPlugins (Some (index_plugins (tree st) search)) st
  end.

(** [copyPlugin(plugin_dir, plugins_dir, link)]. *)
Definition copyPlugin (plugin_dir : path) (plugins_dir : string) (lnk : bool)
    (st : State) : State * outcome :=
  match new_PluginInfo (tree st) plugin_dir with
  | None => (st, Rejected (DescriptorError plugin_dir))
  | Some pinfo =>
      let dest := Path.join plugins_dir (id pinfo) in
      let t := Fs.rm_rf dest (tree st) in
      let t :=
        if lnk then Fs.symlinkSync plugin_dir dest t
        else Fs.cp_R plugin_dir dest (Fs.mkdir_p dest t) in
      let data := SourceLocal plugin_dir in
      (save_fetch_metadata dest data (set_tree t st), Fulfilled dest)
  end.

(** Line 44: [shell.mkdir('-p', plugins_dir)]. *)
Definition entered (plugins_dir : string) (st : State) : State :=
  set_tree (Fs.mkdir_p (Path.of_string plugins_dir) (tree st)) st.

(** [options.subdir] and [options.searchpath] once lines 47 to 51 have run. *)
Definition subdir_of (o : Options) : string := Js.or_default (subdir o) ".".

Definition searchpath_of (delimiter : ascii) (o : Options) : list string :=
  match searchpath o with
  | SearchpathAbsent => []
  | SearchpathString EmptyString => []
  | SearchpathString s => Js.split delimiter s
  | SearchpathArray l => l
  end.

(** [options.searchpath] read as the array it is after those lines. *)
Definition searchpath_array (o : Options) : list string :=
  match searchpath o with
  | SearchpathArray l => l
  | _ => []
  end.

(** Lines 46 to 51: the defaults, and the split of a search path given as
    one string on [path.delimiter]. *)
Definition defaults (delimiter : ascii) (options : option Options) : Options :=
  let o := default no_options options in
  let o := set_subdir (Some (subdir_of o)) o in
  set_searchpath (SearchpathArray (searchpath_of delimiter o)) o.

(** Lines 58 to 60: the match of the fragment, when there is a fragment. *)
Definition fragment_of (uri : Url.t) : option (string * option string) :=
  match Url.hash uri with
  | Some h => hash_match h
  | None => None
  end.

(** Lines 60 to 67: the options after a fragment matched, and the reference
    cut at its ['#']. *)
Definition with_fragment (result : string * option string) (o : Options) : Options :=
  let o := if Js.truthy (Some result.1) then set_git_ref (Some result.1) o else o in
  if Js.truthy result.2 then set_subdir result.2 o else o.

Definition truncated (plugin_src : string) : string :=
  Js.substring0 (Js.indexOf "#" plugin_src) plugin_src.

(** The reference and the options with which lines 72 to 136 are reached:
    those of the call, or those of the re-entry when a fragment matched. *)
Definition without_fragment (plugin_src : string) : string :=
  match fragment_of (Url.parse plugin_src) with
  | Some _ => truncated plugin_src
  | None => plugin_src
  end.

Definition resolved_options (delimiter : ascii) (plugin_src : string)
    (options : option Options) : Options :=
  match fragment_of (Url.parse plugin_src) with
  | Some result => with_fragment result (defaults delimiter options)
  | None => defaults delimiter options
  end.

(** The test of line 73. *)
Definition looks_like_network_url (uri : Url.t) (plugin_src : string) : bool :=
  match Url.protocol uri with
  | None => false
  | Some p =>
      negb (String.eqb p "file:") && negb (String.eqb p "c:")
      && negb (drive_path_match plugin_src)
  end.

(** Lines 127 to 135: [p.then(copy).then(check)]. *)
Definition then_copy_and_check (plugins_dir : string) (o : Options) (linkable : bool)
    (st : State) (p : outcome) : State * Options * outcome :=
  match p with
  | Fulfilled d =>
      let o := set_plugin_src_dir (Some d) o in
      match copyPlugin d plugins_dir (link o && linkable) st with
      | (st, Fulfilled dest) =>
          match checkID (expected_id o) dest st with
          | None => (st, o, Fulfilled dest)
          | Some e => (st, o, Rejected e)
          end
      | (st, r) => (st, o, r)
      end
  | r => (st, o, r)
  end.


(** Lines 72 to 136: what [fetchPlugin] does once no fragment is left to
    strip. *)
Definition fetch_resolved (uri : Url.t) (plugin_src plugins_dir : string)
    (o : Options) (st : State) : State * Options * outcome :=
  if looks_like_network_url uri plugin_src then
    if link o then
      (st, o, Rejected link_unsupported)
    else
      let data := SourceGit plugin_src (subdir_of o) (git_ref o) in
      let '(t, p) := clonePluginGit w plugin_src plugins_dir o (tree st) in
      let st := add_call (CallClone plugin_src plugins_dir) (set_tree t st) in
      match p with
      | Fulfilled d =>
          match checkID (expected_id o) d st with
          | None => (save_fetch_metadata d data st, o, Fulfilled d)
          | Some e => (st, o, Rejected e)
          end
      | r => (st, o, r)
      end
  else
    let plugin_dir := Path.join plugin_src (subdir_of o) in
    if Fs.existsSync (tree st) plugin_dir then
      then_copy_and_check plugins_dir o true st (Fulfilled plugin_dir)
    else
      let st := loadLocalPlugins (searchpath_array o) st in
      match localPlugins st ≫= (.!! plugin_src) with
      | Some pinfo =>
          then_copy_and_check plugins_dir o true st (Fulfilled (dir pinfo))
      | None =>
          if Js.inherited plugin_src then
            (* [localPlugins[plugin_src]] is a value the index inherits: it is
               truthy and has no [dir], so the copy is handed [undefined]. *)
            (st, set_plugin_src_dir None o, Rejected undefined_directory)
          else if noregistry o then
            then_copy_and_check plugins_dir o true st (Rejected (not_found_locally plugin_src))
          else
            let '(t, p) := registry_fetch w [plugin_src] (client o) (tree st) in
            let st := add_call (CallRegistry [plugin_src]) (set_tree t st) in
            then_copy_and_check plugins_dir o false st p
      end.

(** [fetchPlugin(plugin_src, plugins_dir, options)], with the depth of its
    recursion bounded by [fuel] ([None] when the bound is hit); [delimiter] is
    [path.delimiter]. *)
Fixpoint fetchPlugin_fuel (fuel : nat) (delimiter : ascii)
    (plugin_src plugins_dir : string) (options : option Options) (st : State)
    : option (State * Options * outcome) :=
  match fuel with
  | O => None
  | S fuel =>
      let st := entered plugins_dir st in
      let o := defaults delimiter options in
      let uri := Url.parse plugin_src in
      match fragment_of uri with
      | Some result =>
          let o := with_fragment result o in
          let new_dir := truncated plugin_src in
          fetchPlugin_fuel fuel delimiter new_dir plugins_dir (Some o) st
      | None => Some (fetch_resolved uri plugin_src plugins_dir o st)
      end
  end.

(** The reference cut at its ['#'] has no fragment left, so the function
    re-enters itself at most once and two units of fuel run it to its end
    ([fetchPlugin_fuel_enough] below). *)
Definition fetchPlugin (delimiter : ascii) (plugin_src plugins_dir : string)
    (options : option Options) (st : State) : State * Options * outcome :=
  default (st, default no_options options, Rejected (Error "unreachable"))
          (fetchPlugin_fuel 2 delimiter plugin_src plugins_dir options st).

End Fetch.

(** ** The android platform handler

    [src/test/android-two-uninstall.js] drives
    [android.handlePlugin('install' | 'uninstall', project_dir, plugin_dir,
    plugin_et)] of [platforms/android], which is not part of these sources. *)

Module Android.

(** An [application/activity] entry of [AndroidManifest.xml], keyed by its
    [android:name] attribute. *)
Record component := mkComponent {
  name : string;
  attributes : string;
}.

Global Instance component_eq_dec : EqDecision component.
Proof. solve_decision. Defined.

(** A platform project: its directory tree, relative to the project
    directory, and the entries of its two documents in document order,
    the components of the manifest and the [plugins/plugin] entries
    [(name, value)] of [res/xml/config.xml]. *)
Record Project := mkProject {
  files : gmap path node;
  manifest : list component;
  registry : list (string * string);
}.

(** What a plugin declares for the platform: file mappings (the content of
    the source file and the target path), manifest components and
    plugin-registry entries. *)
Record Descriptor := mkDescriptor {
  declaredFiles : list (content * path);
  components : list component;
  plugins : list (string * string);
}.

Definition parent (p : path) : path := reverse (tail (reverse p)).

Section Handler.

(** The fixed top-level source roots of the platform project. *)
Variable roots : list path.

(** A directory with nothing below it. *)
Definition empty_dir (t : gmap path node) (d : path) : Prop :=
  t !! d = Some Dir ∧ map_Forall (λ k _, ¬ (d `prefix_of` k ∧ k ≠ d)) t.

Global Instance empty_dir_dec t d : Decision (empty_dir t d).
Proof. unfold empty_dir. apply _. Defined.

(** Modelled from the spec: the upward walk of uninstall, which is part of
    the absent [platforms/android]: from the directory of a deleted file,
    each directory that is now empty is deleted and the walk goes on to its
    parent; it stops at a fixed source root, which is never deleted, at the
    project directory, and at the first directory that is not empty.  The
    directory is given by its components in reverse. *)
Fixpoint cascade_rev (rd : list string) (t : gmap path node) : gmap path node :=
  match rd with
  | [] => t
  | _ :: rd' =>
      let d := reverse rd in
      if decide (d ∈ roots) then t
      else if decide (empty_dir t d) then cascade_rev rd' (delete d t)
      else t
  end.

Definition cascade (d : path) (t : gmap path node) : gmap path node :=
  cascade_rev (reverse d) t.

(** Modelled from the spec: the file part of [installPlugin] and of
    [uninstallPlugin] for one declared mapping: install copies the file to
    its target path, creating the directories on the way; uninstall deletes
    it (a file already missing is tolerated) and walks upward. *)
Definition install_file (f : content * path) (t : gmap path node) : gmap path node :=
  <[f.2 := File f.1]> (Fs.mkdir_p (parent f.2) t).

Definition uninstall_file (f : content * path) (t : gmap path node) : gmap path node :=
  cascade (parent f.2) (delete f.2 t).

(** Modelled from the spec: [installPlugin(descriptor, projectDir)] of the
    absent [platforms/android]: every declared file is copied, in the order
    declared, and every declared entry is added to its document. *)
Definition installPlugin (d : Descriptor) (p : Project) : Project :=
  mkProject (foldl (λ t f, install_file f t) (files p) (declaredFiles d))
            (manifest p ++ components d)
            (registry p ++ plugins d).

(** Modelled from the spec: [uninstallPlugin(descriptor, projectDir)] of the
    absent [platforms/android]: the files are reversed in the reverse of the
    order of install, and an entry goes from its document when its key
    attributes, the name of a component and the name and value of a plugin
    entry, are those of a declared entry, wherever it stands. *)
Definition uninstallPlugin (d : Descriptor) (p : Project) : Project :=
  mkProject (foldr uninstall_file (files p) (declaredFiles d))
            (filter (λ c, name c ∉ name <$> components d) (manifest p))
            (filter (λ e, e ∉ plugins d) (registry p)).

(** A tree in which whatever exists has all its ancestors. *)
Definition ancestor_closed (t : gmap path node) : Prop :=
  map_Forall (λ k _, Forall (λ q, is_Some (t !! q)) (Fs.ancestors_and_self k)) t.

(** A tree whose directories, the source roots apart, all hold something. *)
Definition no_empty_dir (t : gmap path node) : Prop :=
  map_Forall (λ q _, q ∈ roots ∨ ¬ empty_dir t q) t.

Definition roots_exist (t : gmap path node) : Prop :=
  Forall (λ r, is_Some (t !! r)) roots.

(** The well-formedness the round trip rests on. *)
Definition well_formed (t : gmap path node) : Prop :=
  ancestor_closed t ∧ no_empty_dir t ∧ roots_exist t.

(** Target paths none of which is, or lies below, another. *)
Fixpoint independent (l : list path) : Prop :=
  match l with
  | [] => True
  | a :: l' => Forall (apart a) l' ∧ independent l'
  end.

Global Instance ancestor_closed_dec t : Decision (ancestor_closed t).
Proof. unfold ancestor_closed. apply _. Defined.

Global Instance no_empty_dir_dec t : Decision (no_empty_dir t).
Proof. unfold no_empty_dir. apply _. Defined.

Global Instance roots_exist_dec t : Decision (roots_exist t).
Proof. unfold roots_exist. apply _. Defined.

Global Instance independent_dec l : Decision (independent l).
Proof. induction l; simpl; apply _. Defined.

(** [u] is [t] less some directories, none of them a source root. *)
Definition pruned_of (t u : gmap path node) : Prop :=
  u ⊆ t ∧ ∀ k n, t !! k = Some n → u !! k = None → n = Dir ∧ k ∉ roots.

(** A project the plugin has not touched: a tree in which whatever exists
    has its ancestors and the source roots exist, holding none of the
    plugin's target paths and none of the keys of its entries. *)
Definition untouched (d : Descriptor) (p : Project) : Prop :=
  ancestor_closed (files p) ∧ roots_exist (files p)
  ∧ Forall (λ f, files p !! f.2 = None) (declaredFiles d)
  ∧ independent ((declaredFiles d).*2)
  ∧ Forall (λ c, name c ∉ name <$> components d) (manifest p)
  ∧ Forall (λ e, e ∉ plugins d) (registry p).

Global Instance untouched_dec d p : Decision (untouched d p).
Proof. unfold untouched. apply _. Defined.

End Handler.

End Android.

(** ** Sanity checks of the string and path functions *)

Example hash_match_ref : hash_match "#v1.0" = Some ("v1.0", None).
Proof. reflexivity. Qed.

Example hash_match_ref_subdir : hash_match "#v1.0:/sub/dir/" = Some ("v1.0", Some "sub/dir").
Proof. reflexivity. Qed.

Example hash_match_empty_parts : hash_match "#:/" = Some ("", Some "").
Proof. reflexivity. Qed.

Example hash_match_newline : hash_match ("#a:b" +:+ String "010" "c") = None.
Proof. reflexivity. Qed.

Example protocol_of_https : Url.protocol_of "HTTPS://example.org/p.git#v1" = Some "https:".
Proof. reflexivity. Qed.

Example protocol_of_plain : Url.protocol_of "org.example.plugin" = None.
Proof. reflexivity. Qed.

Example parse_trims_and_escapes :
  Url.parse " https://example.org/p.git#v1:my dir "
  = Url.mk (Some "https:") (Some "#v1:my%20dir").
Proof. reflexivity. Qed.

Example parse_verbatim_reference :
  Url.verbatim "https://example.org/p.git#v1:src/plugin" = true
  ∧ Url.parse "https://example.org/p.git#v1:src/plugin"
    = Url.mk (Some "https:") (Some "#v1:src/plugin").
Proof. split; reflexivity. Qed.

Example inherited_names :
  Js.inherited "constructor" = true ∧ Js.inherited "org.example.plugin" = false.
Proof. split; reflexivity. Qed.

Example path_join_dot : Path.join "plugins/foo" "." = ["plugins"; "foo"].
Proof. reflexivity. Qed.

Example path_join_up : Path.join "/tmp//x/" "../y/sub" = ["tmp"; "y"; "sub"].
Proof. reflexivity. Qed.

Example split_delimiter : Js.split ":" "/a/plugins::/b" = ["/a/plugins"; ""; "/b"].
Proof. reflexivity. Qed.

Example drive_path : drive_path_match "D:\plugins\foo" = true.
Proof. reflexivity. Qed.

Example network_url_https :
  looks_like_network_url (Url.parse "https://example.org/p.git") "https://example.org/p.git" = true.
Proof. reflexivity. Qed.

Example network_url_file :
  looks_like_network_url (Url.parse "file:///tmp/p") "file:///tmp/p" = false.
Proof. reflexivity. Qed.

Example network_url_drive :
  looks_like_network_url (Url.parse "D:\plugins\foo") "D:\plugins\foo" = false.
Proof. reflexivity. Qed.

Example truncated_reference : truncated "https://example.org/p.git#v1:sub" = "https://example.org/p.git".
Proof. reflexivity. Qed.

(** * Properties *)

(** ** Strings and fragments *)

Lemma indexOf_lower_bound c s : (-1 ≤ Js.indexOf c s)%Z.
Proof.
  induction s as [|a s IH]; simpl; [lia|].
  destruct (Ascii.eqb a c); [lia|].
  destruct (Z.ltb_spec (Js.indexOf c s) 0); lia.
Qed.

Lemma substring0_length_app s r :
  Js.substring0 (Z.of_nat (String.length s)) (s +:+ r) = s.
Proof.
  unfold Js.substring0. rewrite Nat2Z.id.
  induction s as [|a s IH]; simpl.
  - by destruct r.
  - by rewrite IH.
Qed.

Lemma indexOf_app_absent c s r :
  Js.indexOf c s = (-1)%Z →
  Js.indexOf c (s +:+ String c r) = Z.of_nat (String.length s).
Proof.
  induction s as [|a s IH]; simpl.
  - by rewrite Ascii.eqb_refl.
  - destruct (Ascii.eqb a c); [discriminate|].
    pose proof (indexOf_lower_bound c s) as Hlb.
    destruct (Z.ltb_spec (Js.indexOf c s) 0) as [Hneg|Hpos]; [|lia].
    intros _. rewrite IH by lia.
    destruct (Z.ltb_spec (Z.of_nat (String.length s)) 0); lia.
Qed.

Lemma truncated_app base rest :
  Js.indexOf "#" base = (-1)%Z → truncated (base +:+ String "#" rest) = base.
Proof.
  intros H. unfold truncated. rewrite indexOf_app_absent by done.
  apply substring0_length_app.
Qed.

Lemma hash_of_absent s : Js.indexOf "#" s = (-1)%Z → Url.hash_of s = None.
Proof.
  induction s as [|a s IH]; simpl; [done|].
  destruct (Ascii.eqb a "#"); [discriminate|].
  pose proof (indexOf_lower_bound "#" s).
  destruct (Z.ltb_spec (Js.indexOf "#" s) 0); [intros _; apply IH; lia | lia].
Qed.

Lemma hash_of_app base rest :
  Js.indexOf "#" base = (-1)%Z →
  Url.hash_of (base +:+ String "#" rest) = Some (String "#" rest).
Proof.
  induction base as [|a s IH]; simpl; [done|].
  destruct (Ascii.eqb a "#"); [discriminate|].
  pose proof (indexOf_lower_bound "#" s).
  destruct (Z.ltb_spec (Js.indexOf "#" s) 0); [intros _; apply IH; lia | lia].
Qed.

Lemma indexOf_substring0 c s :
  Js.indexOf c (Js.substring0 (Js.indexOf c s) s) = (-1)%Z.
Proof.
  unfold Js.substring0.
  induction s as [|a s IH]; simpl; [done|].
  destruct (Ascii.eqb a c) eqn:Hac; [done|].
  pose proof (indexOf_lower_bound c s).
  destruct (Z.ltb_spec (Js.indexOf c s) 0) as [Hneg|Hpos]; [done|].
  replace (Z.to_nat (Js.indexOf c s + 1)) with (S (Z.to_nat (Js.indexOf c s))) by lia.
  simpl. rewrite Hac, IH. done.
Qed.

(** The reference cut at its ['#'] has no fragment. *)
Lemma hash_of_truncated s : Url.hash_of (truncated s) = None.
Proof. apply hash_of_absent, indexOf_substring0. Qed.

(** *** Trimming and escaping *)

Lemma trimEnd_cons (a : ascii) (s : string) :
  Url.is_space a = false → Url.trimEnd (String a s) = String a (Url.trimEnd s).
Proof. intros Ha. simpl. rewrite Ha. by destruct (Url.trimEnd s). Qed.

Lemma trimEnd_head (a : ascii) (s : string) :
  Url.trimEnd (String a s) = EmptyString
  ∨ ∃ r, Url.trimEnd (String a s) = String a r.
Proof.
  simpl. destruct (Url.trimEnd s); [|eauto]. destruct (Url.is_space a); eauto.
Qed.

Lemma hash_of_trimStart (s : string) :
  Url.hash_of s = None → Url.hash_of (Url.trimStart s) = None.
Proof.
  induction s as [|a s IH]; simpl; [done|].
  destruct (Ascii.eqb a "#") eqn:Ha; [done|]. intros H.
  destruct (Url.is_space a); [by apply IH|]. simpl. by rewrite Ha.
Qed.

Lemma hash_of_trimEnd (s : string) :
  Url.hash_of s = None → Url.hash_of (Url.trimEnd s) = None.
Proof.
  induction s as [|a s IH]; simpl; [done|].
  destruct (Ascii.eqb a "#") eqn:Ha; [done|]. intros H. specialize (IH H).
  destruct (Url.trimEnd s) as [|b r].
  - destruct (Url.is_space a); simpl; [done|]. by rewrite Ha.
  - simpl in *. by rewrite Ha.
Qed.

Lemma hash_of_trim (s : string) : Url.hash_of s = None → Url.hash_of (Url.trim s) = None.
Proof. intros H. by apply hash_of_trimEnd, hash_of_trimStart. Qed.

Lemma trimStart_app_stop (c : ascii) (x y : string) :
  Url.is_space c = false →
  Url.trimStart (x +:+ String c y) = Url.trimStart x +:+ String c y.
Proof.
  intros Hc. induction x as [|a x IH]; simpl.
  - by rewrite Hc.
  - by destruct (Url.is_space a).
Qed.

Lemma trimEnd_app_stop (c : ascii) (x y : string) :
  Url.is_space c = false →
  ∃ y', Url.trimEnd (x +:+ String c y) = x +:+ String c y'.
Proof.
  intros Hc. induction x as [|a x [y' IH]].
  - exists (Url.trimEnd y). by apply trimEnd_cons.
  - exists y'. change (String a x +:+ String c y) with (String a (x +:+ String c y)).
    simpl. rewrite IH. by destruct x.
Qed.

Lemma span_trimEnd (p : ascii → bool) (x : string) :
  (∀ c, p c = true → Url.is_space c = false) →
  Js.span p (Url.trimEnd x) = ((Js.span p x).1, Url.trimEnd (Js.span p x).2).
Proof.
  intros Hp. induction x as [|a x IH]; [done|].
  destruct (p a) eqn:Ha.
  - rewrite trimEnd_cons by by apply Hp.
    cbn [Js.span]. rewrite Ha, IH. by destruct (Js.span p x).
  - cbn [Js.span]. rewrite Ha. cbn [fst snd].
    destruct (trimEnd_head a x) as [->|[r ->]]; [done|].
    cbn [Js.span]. by rewrite Ha.
Qed.

Lemma scheme_char_no_space (c : ascii) :
  Url.is_scheme_char c = true → Url.is_space c = false.
Proof. destruct c as [[] [] [] [] [] [] [] []]; vm_compute; congruence. Qed.

Lemma protocol_of_trimEnd (x : string) :
  Url.protocol_of (Url.trimEnd x) = Url.protocol_of x.
Proof.
  unfold Url.protocol_of. rewrite span_trimEnd by apply scheme_char_no_space.
  destruct (Js.span Url.is_scheme_char x) as [l r]. cbn [fst snd].
  destruct l as [|a l]; [done|]. destruct r as [|c r]; [done|].
  destruct (Ascii.eqb_spec c ":") as [->|Hc].
  - by rewrite trimEnd_cons.
  - destruct (trimEnd_head c r) as [->|[r' ->]]; [|done].
    destruct c as [[] [] [] [] [] [] [] []]; done.
Qed.

Lemma verbatim_char_plain (c : ascii) :
  Url.verbatim_char c = true → Url.is_space c = false ∧ Url.auto_escaped c = false.
Proof. destruct c as [[] [] [] [] [] [] [] []]; vm_compute; by try discriminate. Qed.

Lemma verbatim_cons (a : ascii) (s : string) :
  Url.verbatim (String a s) = true ↔ Url.verbatim_char a = true ∧ Url.verbatim s = true.
Proof. simpl. by rewrite andb_true_iff. Qed.

Lemma verbatim_app (s r : string) :
  Url.verbatim (s +:+ r) = Url.verbatim s && Url.verbatim r.
Proof. induction s as [|a s IH]; simpl; [done|]. by rewrite IH, andb_assoc. Qed.

Lemma trimStart_verbatim (s : string) : Url.verbatim s = true → Url.trimStart s = s.
Proof.
  destruct s as [|a s]; [done|]. intros [Ha _]%verbatim_cons. simpl.
  by destruct (verbatim_char_plain a Ha) as [-> _].
Qed.

Lemma trimEnd_verbatim (s : string) : Url.verbatim s = true → Url.trimEnd s = s.
Proof.
  induction s as [|a s IH]; [done|]. intros [Ha Hs]%verbatim_cons.
  destruct (verbatim_char_plain a Ha) as [Hsp _].
  by rewrite trimEnd_cons, IH.
Qed.

Lemma trim_verbatim (s : string) : Url.verbatim s = true → Url.trim s = s.
Proof. intros H. unfold Url.trim. by rewrite trimStart_verbatim, trimEnd_verbatim. Qed.

Lemma escape_verbatim (s : string) : Url.verbatim s = true → Url.escape s = s.
Proof.
  induction s as [|a s IH]; [done|]. intros [Ha Hs]%verbatim_cons.
  destruct (verbatim_char_plain a Ha) as [_ Hesc].
  simpl. by rewrite Hesc, IH.
Qed.

Lemma verbatim_hash_of (s h : string) :
  Url.verbatim s = true → Url.hash_of s = Some h → Url.verbatim h = true.
Proof.
  induction s as [|a s IH]; simpl; [done|].
  intros Hv. destruct (Ascii.eqb a "#"); [by intros [= <-]|].
  apply andb_true_iff in Hv as [_ Hs]. by apply IH.
Qed.

Lemma verbatim_one_line (s : string) :
  Url.verbatim s = true → Js.has_line_terminator s = false.
Proof.
  induction s as [|a s IH]; [done|]. intros [Ha Hs]%verbatim_cons.
  simpl. rewrite IH by done.
  destruct a as [[] [] [] [] [] [] [] []]; done.
Qed.

(** A reference [url.parse] reads as it is written. *)
Lemma parse_verbatim (s : string) :
  Url.verbatim s = true → Url.parse s = Url.mk (Url.protocol_of s) (Url.hash_of s).
Proof.
  intros Hv. unfold Url.parse. rewrite trim_verbatim by done. cbv zeta. f_equal.
  destruct (Url.hash_of s) as [h|] eqn:Hh; [|done].
  pose proof (verbatim_hash_of s h Hv Hh) as Hvh. simpl.
  destruct (Url.unsafe_protocol _); [done|]. by rewrite escape_verbatim.
Qed.

Lemma fragment_of_verbatim (s : string) :
  Url.verbatim s = true →
  fragment_of (Url.parse s) = match Url.hash_of s with
                              | Some h => hash_match h
                              | None => None
                              end.
Proof. intros Hv. by rewrite parse_verbatim. Qed.

Lemma verbatim_substring0 (n : Z) (s : string) :
  Url.verbatim s = true → Url.verbatim (Js.substring0 n s) = true.
Proof.
  unfold Js.substring0. generalize (Z.to_nat n) as m. intros m. revert m.
  induction s as [|a s IH]; intros [|m]; simpl; try done.
  intros [Ha Hs]%andb_true_iff. rewrite Ha. by apply IH.
Qed.

Lemma verbatim_truncated (s : string) :
  Url.verbatim s = true → Url.verbatim (truncated s) = true.
Proof. apply verbatim_substring0. Qed.

Lemma fragment_of_truncated s : fragment_of (Url.parse (truncated s)) = None.
Proof.
  unfold fragment_of, Url.parse. cbn [Url.hash].
  by rewrite hash_of_trim by apply hash_of_truncated.
Qed.

Lemma span_app_absent (p : ascii → bool) c s r :
  p c = false →
  (∀ a, p a = false → a = c) →
  Js.indexOf c s = (-1)%Z →
  Js.span p (s +:+ String c r) = (s, String c r).
Proof.
  intros Hc Honly. induction s as [|a s IH]; simpl.
  - by rewrite Hc.
  - destruct (Ascii.eqb a c) eqn:Hac; [discriminate|].
    pose proof (indexOf_lower_bound c s).
    destruct (Z.ltb_spec (Js.indexOf c s) 0); [|lia].
    intros _. destruct (p a) eqn:Hpa.
    + rewrite IH by lia. done.
    + apply Honly in Hpa. subst a. by rewrite Ascii.eqb_refl in Hac.
Qed.

Lemma span_absent (p : ascii → bool) c s :
  (∀ a, p a = false → a = c) →
  Js.indexOf c s = (-1)%Z →
  Js.span p s = (s, EmptyString).
Proof.
  intros Honly. induction s as [|a s IH]; simpl; [done|].
  destruct (Ascii.eqb a c) eqn:Hac; [discriminate|].
  pose proof (indexOf_lower_bound c s).
  destruct (Z.ltb_spec (Js.indexOf c s) 0); [|lia].
  intros _. destruct (p a) eqn:Hpa.
  - rewrite IH by lia. done.
  - apply Honly in Hpa. subst a. by rewrite Ascii.eqb_refl in Hac.
Qed.

Lemma not_colon_only a : negb (Ascii.eqb a ":") = false → a = ":"%char.
Proof. intros H. apply negb_false_iff in H. by apply Ascii.eqb_eq. Qed.

(** What the fragment pattern yields on [#ref:subdir] and on [#ref]. *)
Lemma hash_match_ref_colon ref sub :
  Js.indexOf ":" ref = (-1)%Z →
  Js.has_line_terminator sub = false →
  hash_match (String "#" (ref +:+ String ":" sub))
  = Some (ref, Some (strip_trailing_slash (strip_leading_slash sub))).
Proof.
  intros Href Hsub. unfold hash_match.
  rewrite (span_app_absent _ ":") by (done || apply not_colon_only).
  by rewrite Hsub.
Qed.

Lemma hash_match_ref_only ref :
  Js.indexOf ":" ref = (-1)%Z → hash_match (String "#" ref) = Some (ref, None).
Proof.
  intros Href. unfold hash_match.
  by rewrite (span_absent _ ":") by (done || apply not_colon_only).
Qed.

(** ** The re-entry of [fetchPlugin] *)

Lemma mkdir_p_idemp (d : path) (t : gmap path node) : Fs.mkdir_p d (Fs.mkdir_p d t) = Fs.mkdir_p d t.
Proof. unfold Fs.mkdir_p. by rewrite <- (assoc_L (∪)), (idemp_L (∪)). Qed.

Lemma defaults_idemp δ o : defaults δ (Some (defaults δ o)) = defaults δ o.
Proof.
  unfold defaults, set_searchpath, set_subdir, subdir_of, searchpath_of; simpl.
  destruct (subdir (default no_options o)) as [[|a s]|]; simpl; done.
Qed.

Lemma defaults_with_fragment δ result o :
  defaults δ (Some (with_fragment result (defaults δ o))) = with_fragment result (defaults δ o).
Proof.
  destruct result as [g1 g2]. unfold with_fragment; simpl.
  destruct g1 as [|a g1]; destruct g2 as [[|b g2]|]; simpl;
    try apply defaults_idemp;
    unfold defaults, set_searchpath, set_subdir, set_git_ref, subdir_of; simpl;
    try done;
    by destruct (subdir (default no_options o)) as [[|c s]|].
Qed.

Section FetchBasic.

Variable w : Collaborators.

Lemma entered_idemp plugins_dir st :
  entered plugins_dir (entered plugins_dir st) = entered plugins_dir st.
Proof. unfold entered, set_tree; simpl. by rewrite mkdir_p_idemp. Qed.

Lemma fetchPlugin_fuel_1_resolved δ src plugins_dir o st :
  fragment_of (Url.parse src) = None →
  fetchPlugin_fuel w 1 δ src plugins_dir o st
  = Some (fetch_resolved w (Url.parse src) src plugins_dir (defaults δ o) (entered plugins_dir st)).
Proof. intros H. simpl. rewrite H. done. Qed.

(** Two units of fuel are as good as any larger number: the function is
    total. *)
Lemma fetchPlugin_fuel_enough n δ src plugins_dir o st :
  fetchPlugin_fuel w (S (S n)) δ src plugins_dir o st
  = Some (fetchPlugin w δ src plugins_dir o st).
Proof.
  unfold fetchPlugin.
  change (fetchPlugin_fuel w (S (S n)) δ src plugins_dir o st) with
    (match fragment_of (Url.parse src) with
     | Some result =>
         fetchPlugin_fuel w (S n) δ (truncated src) plugins_dir
           (Some (with_fragment result (defaults δ o))) (entered plugins_dir st)
     | None => Some (fetch_resolved w (Url.parse src) src plugins_dir (defaults δ o)
                       (entered plugins_dir st))
     end).
  change (fetchPlugin_fuel w 2 δ src plugins_dir o st) with
    (match fragment_of (Url.parse src) with
     | Some result =>
         fetchPlugin_fuel w 1 δ (truncated src) plugins_dir
           (Some (with_fragment result (defaults δ o))) (entered plugins_dir st)
     | None => Some (fetch_resolved w (Url.parse src) src plugins_dir (defaults δ o)
                       (entered plugins_dir st))
     end).
  destruct (fragment_of (Url.parse src)) as [result|]; [|done].
  rewrite fetchPlugin_fuel_1_resolved by apply fragment_of_truncated.
  change (fetchPlugin_fuel w (S n) δ (truncated src) plugins_dir
            (Some (with_fragment result (defaults δ o))) (entered plugins_dir st)) with
    (match fragment_of (Url.parse (truncated src)) with
     | Some result' =>
         fetchPlugin_fuel w n δ (truncated (truncated src)) plugins_dir
           (Some (with_fragment result' (defaults δ (Some (with_fragment result (defaults δ o))))))
           (entered plugins_dir (entered plugins_dir st))
     | None => Some (fetch_resolved w (Url.parse (truncated src)) (truncated src) plugins_dir
                       (defaults δ (Some (with_fragment result (defaults δ o))))
                       (entered plugins_dir (entered plugins_dir st)))
     end).
  rewrite fragment_of_truncated. done.
Qed.

(** [fetchPlugin] without its recursion. *)
Lemma fetchPlugin_unfold δ src plugins_dir o st :
  fetchPlugin w δ src plugins_dir o st
  = match fragment_of (Url.parse src) with
    | Some result =>
        fetch_resolved w (Url.parse (truncated src)) (truncated src) plugins_dir
          (with_fragment result (defaults δ o)) (entered plugins_dir st)
    | None =>
        fetch_resolved w (Url.parse src) src plugins_dir (defaults δ o) (entered plugins_dir st)
    end.
Proof.
  unfold fetchPlugin.
  change (fetchPlugin_fuel w 2 δ src plugins_dir o st) with
    (match fragment_of (Url.parse src) with
     | Some result =>
         fetchPlugin_fuel w 1 δ (truncated src) plugins_dir
           (Some (with_fragment result (defaults δ o))) (entered plugins_dir st)
     | None => Some (fetch_resolved w (Url.parse src) src plugins_dir (defaults δ o)
                       (entered plugins_dir st))
     end).
  destruct (fragment_of (Url.parse src)) as [result|]; [|done].
  rewrite fetchPlugin_fuel_1_resolved by apply fragment_of_truncated.
  by rewrite defaults_with_fragment, entered_idemp.
Qed.

End FetchBasic.

(** ** The fragment and the test for a network URL *)

Lemma span_app_stop (p : ascii → bool) c x y :
  p c = false →
  Js.span p (x +:+ String c y) = ((Js.span p x).1, (Js.span p x).2 +:+ String c y).
Proof.
  intros Hc. induction x as [|a x IH]; simpl.
  - by rewrite Hc.
  - destruct (p a); [|done].
    rewrite IH. by destruct (Js.span p x).
Qed.

Lemma hash_of_split s h :
  Url.hash_of s = Some h →
  ∃ base rest, s = base +:+ String "#" rest ∧ h = String "#" rest
               ∧ Js.indexOf "#" base = (-1)%Z.
Proof.
  induction s as [|a s IH]; simpl; [done|].
  destruct (Ascii.eqb a "#") eqn:Ha.
  - intros [= <-]. apply Ascii.eqb_eq in Ha as ->. by exists EmptyString, s.
  - intros Hh. destruct (IH Hh) as (base & rest & -> & -> & Hb).
    exists (String a base), rest. simpl. rewrite Ha, Hb. done.
Qed.

Lemma protocol_of_app_hash base rest :
  Url.protocol_of (base +:+ String "#" rest) = Url.protocol_of base.
Proof.
  unfold Url.protocol_of. rewrite (span_app_stop _ "#") by done.
  destruct (Js.span Url.is_scheme_char base) as [l r]; simpl.
  destruct l as [|a l]; [done|].
  destruct r as [|b r]; simpl; [done|done].
Qed.

Lemma drive_path_match_app_hash base rest :
  drive_path_match (base +:+ String "#" rest) = drive_path_match base.
Proof.
  unfold drive_path_match. rewrite (span_app_stop _ "#") by done.
  destruct (Js.span Js.is_word base) as [l r]; simpl.
  destruct l as [|a l]; [done|].
  destruct r as [|b [|c r]]; simpl; done.
Qed.

Lemma hash_of_trim_Some (s : string) :
  is_Some (Url.hash_of (Url.trim s)) → is_Some (Url.hash_of s).
Proof.
  intros [h Hh]. destruct (Url.hash_of s) eqn:Hs; [done|].
  by rewrite (hash_of_trim s Hs) in Hh.
Qed.

Lemma protocol_of_trim_app_hash (base rest : string) :
  Url.protocol_of (Url.trim (base +:+ String "#" rest)) = Url.protocol_of (Url.trim base).
Proof.
  unfold Url.trim. rewrite (trimStart_app_stop "#") by done.
  destruct (trimEnd_app_stop "#" (Url.trimStart base) rest) as [y' ->]; [done|].
  by rewrite protocol_of_app_hash, protocol_of_trimEnd.
Qed.

(** Cutting the fragment off does not change the side of line 73 taken. *)
Lemma looks_like_network_url_truncated s h :
  Url.hash (Url.parse s) = Some h →
  looks_like_network_url (Url.parse (truncated s)) (truncated s)
  = looks_like_network_url (Url.parse s) s.
Proof.
  intros Hh.
  assert (Hs : is_Some (Url.hash_of s)).
  { apply hash_of_trim_Some. unfold Url.parse in Hh. cbn [Url.hash] in Hh.
    destruct (Url.hash_of (Url.trim s)); [done|discriminate]. }
  destruct Hs as [h0 Hh0].
  destruct (hash_of_split s h0 Hh0) as (base & rest & -> & _ & Hb).
  rewrite truncated_app by done.
  unfold looks_like_network_url, Url.parse. cbn [Url.protocol].
  by rewrite protocol_of_trim_app_hash, drive_path_match_app_hash.
Qed.

Lemma fragment_of_Some_hash s result :
  fragment_of (Url.parse s) = Some result → ∃ h, Url.hash (Url.parse s) = Some h.
Proof. unfold fragment_of. destruct (Url.hash (Url.parse s)); [eauto|done]. Qed.



Section FetchOptions.

Variable w : Collaborators.

(** Past line 70 the only option written is [plugin_src_dir]. *)
Lemma then_copy_and_check_options plugins_dir o linkable st p :
  let o' := (then_copy_and_check plugins_dir o linkable st p).1.2 in
  subdir o' = subdir o ∧ git_ref o' = git_ref o ∧ searchpath o' = searchpath o
  ∧ link o' = link o.
Proof.
  cbv zeta. unfold then_copy_and_check. destruct p as [d|e]; simpl; [|done].
  destruct (copyPlugin d plugins_dir _ st) as [st' [dest|e]]; simpl; [|done].
  by destruct (checkID _ dest st').
Qed.

Lemma fetch_resolved_options uri src plugins_dir o st :
  let o' := (fetch_resolved w uri src plugins_dir o st).1.2 in
  subdir o' = subdir o ∧ git_ref o' = git_ref o ∧ searchpath o' = searchpath o
  ∧ link o' = link o.
Proof.
  cbv zeta. unfold fetch_resolved.
  destruct (looks_like_network_url uri src).
  - destruct (link o) eqn:Hl; [done|].
    destruct (clonePluginGit w src plugins_dir o (tree st)) as [t [d|e]]; [|done].
    by destruct (checkID _ d _).
  - destruct (Fs.existsSync _ _); [apply then_copy_and_check_options|].
    destruct (localPlugins _ ≫= _); [apply then_copy_and_check_options|].
    destruct (Js.inherited src); [done|].
    destruct (noregistry o); [done|].
    destruct (registry_fetch w [src] (client o) _) as [t p].
    apply then_copy_and_check_options.
Qed.

End FetchOptions.

(** ** The directory tree: what each operation leaves at a path *)

Lemma lookup_rm_rf (d k : path) (t : gmap path node) :
  Fs.rm_rf d t !! k = if decide (d `prefix_of` k) then None else t !! k.
Proof.
  unfold Fs.rm_rf. destruct (decide (d `prefix_of` k)) as [Hp|Hp].
  - apply map_lookup_filter_None. right. intros n _ Hn. by apply Hn.
  - destruct (t !! k) as [n|] eqn:Hk.
    + by apply map_lookup_filter_Some.
    + apply map_lookup_filter_None. by left.
Qed.

Lemma elem_of_ancestors_and_self (d k : path) :
  k ∈ Fs.ancestors_and_self d ↔ k ≠ [] ∧ k `prefix_of` d.
Proof.
  revert k. induction d as [|c d IH]; intros k; simpl.
  - rewrite elem_of_nil. split; [done|]. intros [Hk Hp].
    by apply prefix_nil_inv in Hp.
  - rewrite elem_of_cons, list_elem_of_fmap. split.
    + intros [->|(q & -> & Hq)].
      * split; [done|]. by exists d.
      * apply IH in Hq as [_ Hq]. split; [done|]. by apply prefix_cons.
    + intros [Hk Hp]. destruct k as [|a k]; [done|].
      pose proof (prefix_cons_inv_1 _ _ _ _ Hp) as ->.
      apply prefix_cons_inv_2 in Hp.
      destruct k as [|b k]; [by left|]. right.
      exists (b :: k). split; [done|]. by apply IH.
Qed.

Lemma lookup_list_to_map_const (l : list path) (v : node) (k : path) :
  (list_to_map ((λ q, (q, v)) <$> l) : gmap path node) !! k
  = if decide (k ∈ l) then Some v else None.
Proof.
  induction l as [|q l IH].
  - done.
  - rewrite fmap_cons, list_to_map_cons, lookup_insert.
    destruct (decide (q = k)) as [->|Hne].
    + by rewrite decide_True by apply list_elem_of_here.
    + rewrite IH. destruct (decide (k ∈ l)) as [Hin|Hin].
      * by rewrite decide_True by by apply list_elem_of_further.
      * rewrite decide_False; [done|]. by intros [->|?]%elem_of_cons.
Qed.

Lemma lookup_mkdir_p (d k : path) (t : gmap path node) :
  Fs.mkdir_p d t !! k
  = match t !! k with
    | Some n => Some n
    | None => if decide (k ≠ [] ∧ k `prefix_of` d) then Some Dir else None
    end.
Proof.
  unfold Fs.mkdir_p. rewrite lookup_union, lookup_list_to_map_const.
  destruct (t !! k) as [n|]; simpl.
  - by destruct (decide (k ∈ _)).
  - destruct (decide (k ∈ _)) as [Hin|Hin].
    + by rewrite decide_True by by apply elem_of_ancestors_and_self.
    + rewrite decide_False; [done|]. by rewrite <- elem_of_ancestors_and_self.
Qed.

Lemma below_Some (d k rest : path) :
  Fs.below d k = Some rest
  ↔ k = d ++ rest ∧ ∃ c r, rest = c :: r ∧ Fs.hidden c = false.
Proof.
  revert k. induction d as [|a d IH]; intros k; simpl.
  - destruct k as [|c r]; [split; [done|by intros [<- (? & ? & ? & _)]]|].
    destruct (Fs.hidden c) eqn:Hc.
    + split; [done|]. intros [<- (c' & r' & [= <- <-] & Hh)]. congruence.
    + split; [intros [= <-]; eauto 6|]. by intros [<- _].
  - destruct k as [|b k]; [split; [done|by intros [? _]]|].
    destruct (decide (a = b)) as [->|Hne].
    + rewrite IH. split; intros [Hk Hv]; (split; [|done]); [by rewrite Hk|by injection Hk].
    + split; [done|]. by intros [[= ? _] _].
Qed.

Lemma below_app (d rest : path) :
  Fs.below d (d ++ rest)
  = match rest with
    | c :: _ => if Fs.hidden c then None else Some rest
    | [] => None
    end.
Proof.
  induction d as [|a d IH]; simpl.
  - by destruct rest.
  - by rewrite decide_True.
Qed.

Lemma below_prefix (d k rest : path) : Fs.below d k = Some rest → d `prefix_of` k.
Proof. intros [-> _]%below_Some. by exists rest. Qed.

Lemma below_self (d : path) : Fs.below d d = None.
Proof.
  destruct (Fs.below d d) as [rest|] eqn:H; [|done].
  apply below_Some in H as [Heq (c & r & -> & _)].
  apply (f_equal List.length) in Heq. rewrite length_app in Heq. simpl in Heq. lia.
Qed.

Lemma lookup_copied (s d k : path) (t : gmap path node) :
  Fs.copied s d t !! k = Fs.below d k ≫= λ rest, t !! (s ++ rest).
Proof.
  unfold Fs.copied.
  set (f := λ kn : path * node, (λ rest, (d ++ rest, kn.2)) <$> Fs.below s kn.1).
  assert (Hin : ∀ n, (k, n) ∈ omap f (map_to_list t)
                     ↔ ∃ rest, Fs.below d k = Some rest ∧ t !! (s ++ rest) = Some n).
  { intros n. rewrite list_elem_of_omap. split.
    - intros ([k0 n0] & Hk0 & Hf). apply elem_of_map_to_list in Hk0.
      unfold f in Hf; simpl in Hf.
      destruct (Fs.below s k0) as [rest|] eqn:Hb; [|done].
      injection Hf as <- <-. exists rest.
      apply below_Some in Hb as [-> Hv]. split; [|done].
      rewrite below_app. destruct Hv as (c & r & -> & ->). done.
    - intros (rest & Hb & Hn). exists (s ++ rest, n). split.
      + by apply elem_of_map_to_list.
      + unfold f; simpl. apply below_Some in Hb as [-> (c & r & -> & Hh)].
        rewrite below_app, Hh. done. }
  destruct (Fs.below d k) as [rest|] eqn:Hb; simpl.
  - destruct (t !! (s ++ rest)) as [n|] eqn:Hn.
    + apply elem_of_list_to_map_1'.
      * intros n' (rest' & [= <-] & Hn')%Hin. congruence.
      * apply Hin. eauto.
    + apply not_elem_of_list_to_map_1. intros ([k' n'] & -> & Hk')%list_elem_of_fmap.
      apply Hin in Hk' as (rest' & [= <-] & Hn'). simpl in *. congruence.
  - apply not_elem_of_list_to_map_1. intros ([k' n'] & -> & Hk')%list_elem_of_fmap.
    by apply Hin in Hk' as (rest' & ? & _).
Qed.

Lemma lookup_cp_R (src dest k : path) (t : gmap path node) :
  Fs.cp_R src dest t !! k
  = match Fs.below dest k ≫= λ rest, t !! (Fs.target t src ++ rest) with
    | Some n => Some n
    | None => t !! k
    end.
Proof.
  unfold Fs.cp_R. rewrite lookup_union, lookup_copied.
  destruct (Fs.below dest k ≫= _) as [n|]; simpl.
  - by destruct (t !! k).
  - by destruct (t !! k).
Qed.

(** Two paths neither of which lies at or below the other. *)
Lemma apart_below (a b k : path) :
  ¬ a `prefix_of` b → ¬ b `prefix_of` a → b `prefix_of` k →
  ¬ a `prefix_of` k ∧ ¬ k `prefix_of` a.
Proof.
  intros Hab Hba Hbk. split.
  - intros Hak. destruct (prefix_weak_total a b k Hak Hbk); done.
  - intros Hka. apply Hba. by etrans.
Qed.

Lemma prefix_snoc_inv (k d : path) (c : string) :
  k `prefix_of` d ++ [c] → k `prefix_of` d ∨ k = d ++ [c].
Proof.
  intros [r Hr]. destruct r as [|x r _] using rev_ind.
  - right. by rewrite app_nil_r in Hr.
  - left. rewrite (assoc_L (++)) in Hr. apply app_inj_tail in Hr as [-> _]. by exists r.
Qed.

(** *** Trees without symbolic links *)

Lemma linkless_lookup (t : gmap path node) (k : path) (n : node) :
  Fs.linkless t = true → t !! k = Some n → Fs.is_link n = false.
Proof.
  unfold Fs.linkless. rewrite forallb_forall. intros H Hk.
  apply negb_true_iff. apply (H (k, n)).
  apply list_elem_of_In. by apply elem_of_map_to_list.
Qed.

Lemma linkless_no_link (t : gmap path node) (k l : path) :
  Fs.linkless t = true → t !! k ≠ Some (Link l).
Proof. intros H Hk. by pose proof (linkless_lookup t k _ H Hk). Qed.

Lemma linkless_intro (t : gmap path node) :
  (∀ k n, t !! k = Some n → Fs.is_link n = false) → Fs.linkless t = true.
Proof.
  intros H. unfold Fs.linkless. apply forallb_forall. intros [k n] Hin.
  apply list_elem_of_In, elem_of_map_to_list in Hin.
  apply negb_true_iff. by apply (H k).
Qed.

Lemma linkless_target (t : gmap path node) (d : path) :
  Fs.linkless t = true → Fs.target t d = d.
Proof.
  intros H. unfold Fs.target. destruct (t !! d) as [[| |l]|] eqn:Hd; try done.
  by destruct (linkless_no_link t d l H).
Qed.

Lemma linkless_mkdir_p (d : path) (t : gmap path node) :
  Fs.linkless t = true → Fs.linkless (Fs.mkdir_p d t) = true.
Proof.
  intros H. apply linkless_intro. intros k n. rewrite lookup_mkdir_p.
  destruct (t !! k) as [m|] eqn:Hk.
  - intros [= <-]. by apply (linkless_lookup t k).
  - destruct (decide _); [by intros [= <-]|done].
Qed.

Lemma linkless_rm_rf (d : path) (t : gmap path node) :
  Fs.linkless t = true → Fs.linkless (Fs.rm_rf d t) = true.
Proof.
  intros H. apply linkless_intro. intros k n. rewrite lookup_rm_rf.
  destruct (decide _); [done|]. by apply linkless_lookup.
Qed.

Lemma linkless_cp_R (src dest : path) (t : gmap path node) :
  Fs.linkless t = true → Fs.linkless (Fs.cp_R src dest t) = true.
Proof.
  intros H. apply linkless_intro. intros k n. rewrite lookup_cp_R.
  destruct (Fs.below dest k) as [rest|]; simpl; [|by apply linkless_lookup].
  destruct (t !! (Fs.target t src ++ rest)) as [m|] eqn:Hm.
  - intros [= <-]. by apply (linkless_lookup t _ _ H Hm).
  - by apply linkless_lookup.
Qed.


(** The tree a copy leaves has no link when the tree it started from had
    none. *)
Lemma linkless_copied (src dest : path) (t : gmap path node) :
  Fs.linkless t = true →
  Fs.linkless (Fs.cp_R src dest (Fs.mkdir_p dest (Fs.rm_rf dest t))) = true.
Proof. intros H. by apply linkless_cp_R, linkless_mkdir_p, linkless_rm_rf. Qed.

(** ** Fragments: C4, C9 *)

(** C4, as stated, fails for a fragment holding a blank: [url.parse]
    escapes it, the subdirectory stored is [my%20dir], and the fetch looks
    for a directory of that name, where the same fetch with [git_ref] and
    [subdir] supplied in the options finds the plugin in [my dir]. *)
Lemma fetchPlugin_fragment_escaped_counterexample :
  let w := mkCollaborators (λ _ _ t, (t, Rejected (CollaboratorError "offline")))
                           (λ _ _ _ t, (t, Rejected (CollaboratorError "offline")))
                           (λ _ _, []) in
  let t := {[ ["work"] := Dir;
              ["work"; "p"] := Dir;
              ["work"; "p"; "my dir"] := Dir;
              ["work"; "p"; "my dir"; "plugin.xml"] := File (Manifest "org.p" "1.0") ]} in
  let st := mkState t None ∅ [] in
  let o := mkOptions false None None SearchpathAbsent true None None None in
  let r := fetchPlugin w ":" "work/p#v1:my dir" "plugins" (Some o) st in
  let r' := fetchPlugin w ":" "work/p" "plugins"
              (Some (set_subdir (Some "my dir") (set_git_ref (Some "v1") o))) st in
  truncated "work/p#v1:my dir" = "work/p"
  ∧ fragment_of (Url.parse "work/p#v1:my dir") = Some ("v1", Some "my%20dir")
  ∧ subdir r.1.2 = Some "my%20dir"
  ∧ r.2 = Rejected (not_found_locally "work/p")
  ∧ r'.2 = Fulfilled ["plugins"; "org.p"].
Proof. vm_compute. repeat split. Qed.

(** C4 (as amended).  A reference [base#ref:subdir] that [url.parse] reads
    as it is written is fetched exactly as [base] is with the options the
    fragment gives: the reference is cut at its ['#'], the pattern yields
    [ref] and the subdirectory, and [fetchPlugin] on the whole string equals
    [fetchPlugin] on the cut string with those options, where [git_ref] and
    [subdir] are the two parts whenever both are non-empty.  The cut string
    has no fragment, so parsing it again changes nothing. *)
Theorem fetchPlugin_fragment_lossless
    (w : Collaborators) (δ : ascii) (base ref sub plugins_dir : string)
    (o : option Options) (st : State) :
  Url.verbatim (base +:+ String "#" (ref +:+ String ":" sub)) = true →
  Js.indexOf "#" base = (-1)%Z →
  Js.indexOf ":" ref = (-1)%Z →
  let src := base +:+ String "#" (ref +:+ String ":" sub) in
  let sub' := strip_trailing_slash (strip_leading_slash sub) in
  truncated src = base
  ∧ fragment_of (Url.parse src) = Some (ref, Some sub')
  ∧ fragment_of (Url.parse base) = None
  ∧ fetchPlugin w δ src plugins_dir o st
    = fetchPlugin w δ base plugins_dir (Some (with_fragment (ref, Some sub') (defaults δ o))) st
  ∧ (ref ≠ EmptyString → sub' ≠ EmptyString →
     fetchPlugin w δ src plugins_dir o st
     = fetchPlugin w δ base plugins_dir
         (Some (set_subdir (Some sub') (set_git_ref (Some ref) (default no_options o)))) st).
Proof.
  intros Hv Hbase Href src sub'.
  assert (Hvb : Url.verbatim base = true ∧ Url.verbatim sub = true).
  { rewrite verbatim_app in Hv. apply andb_true_iff in Hv as [Hb Hv].
    apply verbatim_cons in Hv as [_ Hv].
    rewrite verbatim_app in Hv. apply andb_true_iff in Hv as [_ Hv].
    by apply verbatim_cons in Hv as [_ Hv]. }
  destruct Hvb as [Hvb Hvs].
  assert (Htr : truncated src = base) by by apply truncated_app.
  assert (Hfrag : fragment_of (Url.parse src) = Some (ref, Some sub')).
  { rewrite fragment_of_verbatim by done. unfold src. rewrite hash_of_app by done.
    apply hash_match_ref_colon; [done|]. by apply verbatim_one_line. }
  assert (Hnone : fragment_of (Url.parse base) = None).
  { rewrite fragment_of_verbatim by done. by rewrite hash_of_absent. }
  assert (Heq : fetchPlugin w δ src plugins_dir o st
    = fetchPlugin w δ base plugins_dir (Some (with_fragment (ref, Some sub') (defaults δ o))) st).
  { rewrite (fetchPlugin_unfold w δ src), Hfrag, Htr.
    rewrite (fetchPlugin_unfold w δ base), Hnone.
    by rewrite defaults_with_fragment. }
  repeat split; try done.
  intros Hr Hs. rewrite (fetchPlugin_unfold w δ src), Hfrag, Htr.
  rewrite (fetchPlugin_unfold w δ base), Hnone. f_equal.
  destruct ref as [|a ref]; [done|]. destruct sub' as [|b sub'']; [done|].
  done.
Qed.

Lemma fetchPlugin_fragment_lossless_witness :
  let w := mkCollaborators (λ _ _ t, (t, Rejected (CollaboratorError "offline")))
                           (λ _ _ _ t, (t, Rejected (CollaboratorError "offline")))
                           (λ _ _, []) in
  let st := mkState ∅ None ∅ [] in
  fetchPlugin w ":" "https://example.org/p.git#v1.0:/src/plugin/" "plugins" None st
  = fetchPlugin w ":" "https://example.org/p.git" "plugins"
      (Some (set_subdir (Some "src/plugin") (set_git_ref (Some "v1.0") no_options))) st.
Proof.
  intros w st.
  refine (proj2 (proj2 (proj2 (proj2
    (fetchPlugin_fragment_lossless w ":" "https://example.org/p.git" "v1.0" "/src/plugin/"
       "plugins" None st _ _ _)))) _ _); try reflexivity; discriminate.
Defined.

(** C9.  The subdirectory a fragment stores is stripped of one leading and one
    trailing ['/'] only: for [#ref://sub//] the stored value is [/sub/], with
    a separator at both ends, whatever the collaborators and the state. *)
Theorem fragment_subdir_keeps_repeated_slashes
    (w : Collaborators) (δ : ascii) (plugins_dir : string) (o : option Options) (st : State) :
  fragment_of (Url.parse "https://example.org/p.git#ref://sub//") = Some ("ref", Some "/sub/")
  ∧ subdir (fetchPlugin w δ "https://example.org/p.git#ref://sub//" plugins_dir o st).1.2
    = Some "/sub/".
Proof.
  split; [reflexivity|].
  rewrite fetchPlugin_unfold.
  change (fragment_of (Url.parse "https://example.org/p.git#ref://sub//"))
    with (Some ("ref", Some "/sub/")).
  cbv match beta.
  destruct (fetch_resolved_options w (Url.parse (truncated "https://example.org/p.git#ref://sub//"))
              (truncated "https://example.org/p.git#ref://sub//") plugins_dir
              (with_fragment ("ref", Some "/sub/") (defaults δ o)) (entered plugins_dir st))
    as (-> & _).
  done.
Qed.

(** ** Links and git URLs: C6 *)



(** ** The search path option: C10 *)

(** C10.  Before anything is resolved, a search path given as one string is
    split on the path delimiter (the empty string, being falsy, gives the
    empty list), an absent one becomes the empty list, and [fetchPlugin] runs
    as if it had been called with the resulting array; building the index from
    the empty list gives an empty index. *)
Theorem fetchPlugin_searchpath_split
    (w : Collaborators) (δ : ascii) (src plugins_dir s : string) (o : Options) (st : State) :
  searchpath (defaults δ (Some (set_searchpath (SearchpathString s) o)))
  = SearchpathArray (match s with EmptyString => [] | _ => Js.split δ s end)
  ∧ searchpath (defaults δ (Some (set_searchpath SearchpathAbsent o))) = SearchpathArray []
  ∧ searchpath (defaults δ None) = SearchpathArray []
  ∧ fetchPlugin w δ src plugins_dir (Some (set_searchpath (SearchpathString s) o)) st
    = fetchPlugin w δ src plugins_dir
        (Some (set_searchpath
                 (SearchpathArray (match s with EmptyString => [] | _ => Js.split δ s end)) o)) st
  ∧ fetchPlugin w δ src plugins_dir (Some (set_searchpath SearchpathAbsent o)) st
    = fetchPlugin w δ src plugins_dir (Some (set_searchpath (SearchpathArray []) o)) st
  ∧ localPlugins (loadLocalPlugins w [] (set_localPlugins None st)) = Some ∅.
Proof.
  assert (H1 : defaults δ (Some (set_searchpath (SearchpathString s) o))
    = defaults δ (Some (set_searchpath
        (SearchpathArray (match s with EmptyString => [] | _ => Js.split δ s end)) o))).
  { destruct s; reflexivity. }
  assert (H2 : defaults δ (Some (set_searchpath SearchpathAbsent o))
    = defaults δ (Some (set_searchpath (SearchpathArray []) o))) by done.
  split; [destruct s; reflexivity|].
  do 2 (split; [reflexivity|]).
  split; [by rewrite !fetchPlugin_unfold, H1|].
  split; [by rewrite !fetchPlugin_unfold, H2|].
  reflexivity.
Qed.

(** ** Identity check: C5 *)

Lemma split_absent c s : Js.indexOf c s = (-1)%Z → Js.split c s = [s].
Proof.
  induction s as [|a s IH]; simpl; [done|].
  destruct (Ascii.eqb a c); [discriminate|].
  pose proof (indexOf_lower_bound c s).
  destruct (Z.ltb_spec (Js.indexOf c s) 0); [|lia].
  intros _. rewrite IH by lia. done.
Qed.

Lemma split_nonempty c s : (1 ≤ List.length (Js.split c s))%nat.
Proof.
  induction s as [|a s IH]; simpl; [lia|].
  destruct (Ascii.eqb a c); simpl; [lia|].
  destruct (Js.split c s); simpl in *; lia.
Qed.

Lemma split_present c s r : (2 ≤ List.length (Js.split c (s +:+ String c r)))%nat.
Proof.
  induction s as [|a s IH]; simpl.
  - rewrite Ascii.eqb_refl. simpl. pose proof (split_nonempty c r). lia.
  - destruct (Ascii.eqb a c); simpl.
    + pose proof (split_nonempty c (s +:+ String c r)). lia.
    + destruct (Js.split c (s +:+ String c r)); simpl in *; lia.
Qed.

Lemma indexOf_absent_head c a s :
  Js.indexOf c (String a s) = (-1)%Z → a ≠ c ∧ Js.indexOf c s = (-1)%Z.
Proof.
  simpl. destruct (Ascii.eqb a c) eqn:Hac; [discriminate|].
  pose proof (indexOf_lower_bound c s).
  destruct (Z.ltb_spec (Js.indexOf c s) 0); [|lia].
  intros _. split; [|lia]. intros ->. by rewrite Ascii.eqb_refl in Hac.
Qed.

Lemma indexOf_app_present c s r : Js.indexOf c (s +:+ String c r) ≠ (-1)%Z.
Proof.
  induction s as [|a s IH]; simpl.
  - by rewrite Ascii.eqb_refl.
  - destruct (Ascii.eqb a c); [done|].
    pose proof (indexOf_lower_bound c (s +:+ String c r)).
    destruct (Z.ltb_spec (Js.indexOf c (s +:+ String c r)) 0); lia.
Qed.

(** [id@version] splits in one way when neither part has an ['@']. *)
Lemma at_inj c i v i' v' :
  Js.indexOf c i = (-1)%Z → Js.indexOf c v = (-1)%Z →
  i +:+ String c v = i' +:+ String c v' → i = i' ∧ v = v'.
Proof.
  revert i'. induction i as [|a i IH]; intros [|a' i'] Hi Hv; simpl.
  - by intros [= ->].
  - intros [= <- ->]. by destruct (indexOf_app_present c i' v').
  - intros [= -> _]. apply indexOf_absent_head in Hi as [? _]. done.
  - intros [= <- Heq]. apply indexOf_absent_head in Hi as [_ Hi].
    destruct (IH i' Hi Hv Heq) as [-> ->]. done.
Qed.

(** C5.  With [id@version] expected (neither part holding an ['@']),
    [checkID] returns iff the descriptor of the directory has that id and
    exactly that version; with a plain non-empty [id] expected, iff the
    descriptor has that id, whatever its version; with nothing expected it
    returns at once; and a descriptor that differs makes it throw the
    identity-mismatch error naming both. *)
Theorem checkID_spec (st : State) (d : path) (i v : string) :
  Js.indexOf "@" i = (-1)%Z →
  Js.indexOf "@" v = (-1)%Z →
  (checkID (Some (i +:+ "@" +:+ v)) d st = None
   ↔ ∃ p, new_PluginInfo (tree st) d = Some p ∧ id p = i ∧ version p = v)
  ∧ (i ≠ EmptyString →
     (checkID (Some i) d st = None ↔ ∃ p, new_PluginInfo (tree st) d = Some p ∧ id p = i)
     ∧ ∀ p, new_PluginInfo (tree st) d = Some p → id p ≠ i →
         checkID (Some i) d st = Some (identity_mismatch i (id p)))
  ∧ checkID None d st = None
  ∧ checkID (Some EmptyString) d st = None
  ∧ (∀ p, new_PluginInfo (tree st) d = Some p → (id p ≠ i ∨ version p ≠ v) →
       checkID (Some (i +:+ "@" +:+ v)) d st
       = Some (identity_mismatch (i +:+ "@" +:+ v) (id p +:+ "@" +:+ version p))).
Proof.
  intros Hi Hv.
  assert (Hexp : ∀ s, Js.or_default (Some (i +:+ String "@" s)) EmptyString = i +:+ String "@" s)
    by (intros s; by destruct i).
  assert (Htru : ∀ s, Js.truthy (Some (i +:+ String "@" s)) = true)
    by (intros s; by destruct i).
  assert (Hver : checkID (Some (i +:+ "@" +:+ v)) d st
    = match new_PluginInfo (tree st) d with
      | None => Some (DescriptorError d)
      | Some p => if decide (i +:+ "@" +:+ v = id p +:+ "@" +:+ version p) then None
                  else Some (identity_mismatch (i +:+ "@" +:+ v) (id p +:+ "@" +:+ version p))
      end).
  { unfold checkID. change ("@" +:+ v) with (String "@" v). rewrite Htru, Hexp. simpl.
    destruct (new_PluginInfo (tree st) d) as [p|]; [|done].
    pose proof (split_present "@" i v) as Hlen.
    destruct (Nat.ltb_spec 1 (List.length (Js.split "@" (i +:+ String "@" v)))); [done|lia]. }
  assert (Hplain : i ≠ EmptyString → checkID (Some i) d st
    = match new_PluginInfo (tree st) d with
      | None => Some (DescriptorError d)
      | Some p => if decide (i = id p) then None else Some (identity_mismatch i (id p))
      end).
  { intros Hne. unfold checkID. destruct i as [|a i]; [done|]. simpl Js.truthy. simpl Js.or_default.
    cbv iota beta. simpl negb. cbv iota.
    destruct (new_PluginInfo (tree st) d) as [p|]; [|done].
    rewrite split_absent by done. done. }
  split; [|split; [|split; [done|split; [done|]]]].
  - rewrite Hver. destruct (new_PluginInfo (tree st) d) as [p|]; [|split; [done|by intros (? & ? & _)]].
    destruct (decide (_ = _)) as [Heq|Hne].
    + split; [intros _|done]. exists p. split; [done|].
      by destruct (at_inj "@" i v _ _ Hi Hv Heq) as [-> ->].
    + split; [done|]. intros (p' & [= <-] & <- & <-). done.
  - intros Hne. rewrite (Hplain Hne). split.
    + destruct (new_PluginInfo (tree st) d) as [p|];
        [|split; [intros H; discriminate H|intros (p & Hp & _); discriminate Hp]].
      destruct (decide (i = id p)) as [->|Hni]; [split; [intros _; by exists p|done]|].
      split; [done|]. intros (p' & [= <-] & <-). done.
    + intros p -> Hni. destruct (decide (i = id p)) as [->|]; done.
  - intros p Hp Hdiff. rewrite Hver, Hp.
    destruct (decide (_ = _)) as [Heq|]; [|done].
    apply (at_inj "@" i v) in Heq as [-> ->]; [|done..]. by destruct Hdiff.
Qed.

Lemma checkID_spec_witness :
  let st := mkState {[ ["plugins"; "foo"; "plugin.xml"] := File (Manifest "foo" "1.2.3") ]}
                    None ∅ [] in
  checkID (Some "foo@1.2.3") ["plugins"; "foo"] st = None
  ∧ checkID (Some "foo") ["plugins"; "foo"] st = None.
Proof.
  intros st.
  destruct (checkID_spec st ["plugins"; "foo"] "foo" "1.2.3" eq_refl eq_refl)
    as (Hv & Hp & _).
  split.
  - apply Hv. eexists. split; [reflexivity|]. split; reflexivity.
  - apply Hp; [discriminate|]. eexists. split; reflexivity.
Defined.

(** ** The index of local plugins: C8 *)

Lemma foldl_insert_lookup (l : list PluginInfo) (m : gmap string PluginInfo) (x : string) :
  foldl (λ m p, <[id p := p]> m) m l !! x
  = match last (filter (λ p, id p = x) l) with
    | Some p => Some p
    | None => m !! x
    end.
Proof.
  induction l as [|p l IH] using rev_ind; [done|].
  rewrite foldl_snoc, filter_app, last_app.
  destruct (decide (id p = x)) as [Hp|Hp].
  - rewrite filter_cons_True by done. simpl. by rewrite <- Hp, lookup_insert_eq.
  - rewrite filter_cons_False by done. simpl. by rewrite lookup_insert_ne.
Qed.

Section Index.

Variable w : Collaborators.

Lemma index_plugins_flat (t : gmap path node) (search : list string) (m : gmap string PluginInfo) :
  foldl (λ m d, foldl (λ m p, <[id p := p]> m) m (loadPluginsDir w t d)) m search
  = foldl (λ m p, <[id p := p]> m) m (mjoin (loadPluginsDir w t <$> search)).
Proof.
  revert m. induction search as [|d search IH]; intros m; [done|].
  simpl. by rewrite IH, foldl_app.
Qed.

(** The identifier resolves to the last descriptor carrying it, in the order
    the search path is scanned. *)
Lemma index_plugins_lookup (t : gmap path node) (search : list string) (x : string) :
  index_plugins w t search !! x
  = last (filter (λ p, id p = x) (mjoin (loadPluginsDir w t <$> search))).
Proof.
  unfold index_plugins. rewrite index_plugins_flat, foldl_insert_lookup.
  by destruct (last _).
Qed.

End Index.

(** C8.  A second call of [loadLocalPlugins], whatever its search path,
    leaves the state as the first call left it, and a call on a state whose
    index is built changes nothing; when the index is built from [A; B], an
    identifier that [B] holds resolves to [B]'s (last) descriptor for it,
    whatever [A] holds. *)
Theorem loadLocalPlugins_once_later_wins
    (w : Collaborators) (search1 search2 : list string) (st : State)
    (A B x : string) (pB : PluginInfo) :
  last (filter (λ p, id p = x) (loadPluginsDir w (tree st) B)) = Some pB →
  loadLocalPlugins w search2 (loadLocalPlugins w search1 st) = loadLocalPlugins w search1 st
  ∧ (is_Some (localPlugins st) → loadLocalPlugins w search1 st = st)
  ∧ (localPlugins st = None →
     localPlugins (loadLocalPlugins w [A; B] st) ≫= (.!! x) = Some pB).
Proof.
  intros HB. split; [|split].
  - unfold loadLocalPlugins. destruct (localPlugins st) eqn:Hst; [by rewrite Hst|done].
  - intros [m Hm]. unfold loadLocalPlugins. by rewrite Hm.
  - intros Hnone. unfold loadLocalPlugins. rewrite Hnone. simpl.
    rewrite index_plugins_lookup. simpl. rewrite app_nil_r, filter_app, last_app.
    by rewrite HB.
Qed.

Lemma loadLocalPlugins_once_later_wins_witness :
  let pA := mkPluginInfo "x" "1.0" ["A"; "x"] in
  let pB := mkPluginInfo "x" "2.0" ["B"; "x"] in
  let w := mkCollaborators (λ _ _ t, (t, Rejected (CollaboratorError "offline")))
                           (λ _ _ _ t, (t, Rejected (CollaboratorError "offline")))
                           (λ _ d, if String.eqb d "A" then [pA]
                                   else if String.eqb d "B" then [pB] else []) in
  localPlugins (loadLocalPlugins w ["A"; "B"] (mkState ∅ None ∅ [])) ≫= (.!! "x") = Some pB.
Proof.
  intros pA pB w.
  refine (proj2 (proj2 (loadLocalPlugins_once_later_wins w [] [] (mkState ∅ None ∅ [])
                          "A" "B" "x" pB _)) _); reflexivity.
Defined.

(** ** Materializing a plugin: C3 *)

Lemma apart_under (a b k : path) :
  apart a b → b `prefix_of` k → ¬ a `prefix_of` k ∧ ¬ k `prefix_of` a.
Proof. intros [? ?]. by apply apart_below. Qed.

Lemma apart_nonempty (a b : path) : apart a b → a ≠ [].
Proof. intros [H _] ->. apply H, prefix_nil. Qed.

Section Materialize.

Variables (src dest : path) (t0 : gmap path node).

Let s := Fs.target t0 src.

Hypothesis Hsrc : apart dest src.
Hypothesis Hs : apart dest s.

Let mk := Fs.mkdir_p dest (Fs.rm_rf dest t0).

Lemma mk_outside (k : path) :
  ¬ dest `prefix_of` k → ¬ k `prefix_of` dest → mk !! k = t0 !! k.
Proof.
  intros H1 H2. unfold mk. rewrite lookup_mkdir_p, lookup_rm_rf.
  rewrite decide_False by done. destruct (t0 !! k); [done|].
  rewrite decide_False; [done|]. by intros [_ ?].
Qed.

Lemma mk_target : Fs.target mk src = s.
Proof.
  unfold Fs.target at 1. rewrite mk_outside; [done|apply Hsrc..].
Qed.

Lemma mk_source (k : path) : s `prefix_of` k → mk !! k = t0 !! k.
Proof. intros H. destruct (apart_under _ _ _ Hs H). by apply mk_outside. Qed.

Let t1 := Fs.cp_R src dest mk.

Lemma copied_lookup (k : path) :
  t1 !! k = match Fs.below dest k ≫= λ rest, t0 !! (s ++ rest) with
            | Some n => Some n
            | None => mk !! k
            end.
Proof.
  unfold t1. rewrite lookup_cp_R, mk_target.
  destruct (Fs.below dest k) as [rest|]; simpl; [|done].
  rewrite mk_source; [done|]. by exists rest.
Qed.

Lemma copied_outside (k : path) : ¬ dest `prefix_of` k → t1 !! k = mk !! k.
Proof.
  intros H. rewrite copied_lookup.
  destruct (Fs.below dest k) as [rest|] eqn:Hb; [|done].
  by apply below_prefix in Hb.
Qed.

Lemma copied_target : Fs.target t1 src = s.
Proof.
  unfold Fs.target at 1. rewrite copied_outside by apply Hsrc.
  rewrite mk_outside; [done|apply Hsrc..].
Qed.

Lemma copied_source (k : path) : s `prefix_of` k → t1 !! k = t0 !! k.
Proof.
  intros H. destruct (apart_under _ _ _ Hs H).
  rewrite copied_outside by done. by apply mk_outside.
Qed.

Lemma mk_again : Fs.mkdir_p dest (Fs.rm_rf dest t1) = mk.
Proof.
  apply map_eq. intros k. unfold mk at 1.
  rewrite !lookup_mkdir_p, !lookup_rm_rf.
  destruct (decide (dest `prefix_of` k)) as [Hp|Hp]; [done|].
  rewrite copied_outside by done. unfold mk. rewrite lookup_mkdir_p, lookup_rm_rf.
  rewrite decide_False by done.
  destruct (t0 !! k); [done|]. by destruct (decide _).
Qed.

Lemma copied_again : Fs.cp_R src dest (Fs.mkdir_p dest (Fs.rm_rf dest t1)) = t1.
Proof. by rewrite mk_again. Qed.

Lemma copied_inside (k : path) :
  dest `prefix_of` k →
  t1 !! k = if decide (k = dest) then Some Dir
            else Fs.below dest k ≫= λ rest, t0 !! (s ++ rest).
Proof.
  intros Hp. rewrite copied_lookup. unfold mk.
  rewrite lookup_mkdir_p, lookup_rm_rf, decide_True by done.
  destruct (decide (k = dest)) as [->|Hne].
  - rewrite below_self. simpl. rewrite decide_True; [done|].
    split; [by eapply apart_nonempty|done].
  - destruct (Fs.below dest k ≫= _); [done|].
    rewrite decide_False; [done|]. intros [_ Hk]. apply Hne.
    apply prefix_length_eq; [done|]. by apply prefix_length.
Qed.

End Materialize.

Lemma new_PluginInfo_ext (t t' : gmap path node) (d : path) :
  Fs.target t' d = Fs.target t d →
  t' !! (Fs.target t d ++ ["plugin.xml"]) = t !! (Fs.target t d ++ ["plugin.xml"]) →
  new_PluginInfo t' d = new_PluginInfo t d.
Proof. intros H1 H2. unfold new_PluginInfo. by rewrite H1, H2. Qed.

(** C3 (as amended).  On a tree without symbolic links, when [copyPlugin]
    copies (its [link] argument being false) and succeeds, and the source
    directory lies neither at or below the final directory nor around it,
    then (1) the final directory is afterwards a directory holding the copies
    of what lies below the source and nothing that was there before, and (2)
    a second call with the same arguments succeeds with the same directory
    and leaves the state exactly as the first call left it. *)
Theorem copyPlugin_replaces_and_repeats
    (src : path) (plugins_dir : string) (st st1 : State) (dest : path) :
  copyPlugin src plugins_dir false st = (st1, Fulfilled dest) →
  Fs.linkless (tree st) = true →
  apart dest src →
  copy_of (tree st) src dest (tree st1)
  ∧ copyPlugin src plugins_dir false st1 = (st1, Fulfilled dest).
Proof.
  unfold copyPlugin at 1.
  destruct (new_PluginInfo (tree st) src) as [p|] eqn:Hp; [|done].
  intros [= <- <-] Hll Hsrc. simpl.
  assert (Hs : apart (Path.join plugins_dir (id p)) (Fs.target (tree st) src))
    by by rewrite linkless_target.
  split.
  - intros k Hk. rewrite (copied_inside src _ (tree st)) by done.
    by rewrite linkless_target.
  - unfold copyPlugin. simpl.
    assert (Hp' : new_PluginInfo
              (Fs.cp_R src (Path.join plugins_dir (id p))
                 (Fs.mkdir_p (Path.join plugins_dir (id p))
                    (Fs.rm_rf (Path.join plugins_dir (id p)) (tree st)))) src
            = Some p).
    { rewrite <- Hp. apply new_PluginInfo_ext.
      - by apply copied_target.
      - apply copied_source; [done..|]. by apply prefix_app_r. }
    rewrite Hp'. unfold save_fetch_metadata, set_tree; simpl.
    rewrite insert_insert_eq. do 2 f_equal. by rewrite copied_again.
Qed.

Lemma copyPlugin_replaces_and_repeats_witness :
  let t := {[ ["work"] := Dir;
              ["work"; "foo"] := Dir;
              ["work"; "foo"; "plugin.xml"] := File (Manifest "foo" "1.0");
              ["work"; "foo"; "www"] := Dir;
              ["work"; "foo"; "www"; "foo.js"] := File (Data "exports.foo = 1");
              ["plugins"] := Dir;
              ["plugins"; "foo"] := Dir;
              ["plugins"; "foo"; "stale.js"] := File (Data "left over") ]} in
  let st := mkState t None ∅ [] in
  let st1 := (copyPlugin ["work"; "foo"] "plugins" false st).1 in
  tree st1 !! ["plugins"; "foo"; "stale.js"] = None
  ∧ tree st1 !! ["plugins"; "foo"; "www"; "foo.js"] = Some (File (Data "exports.foo = 1"))
  ∧ copyPlugin ["work"; "foo"] "plugins" false st1 = (st1, Fulfilled ["plugins"; "foo"]).
Proof.
  intros t st st1.
  assert (H1 : copyPlugin ["work"; "foo"] "plugins" false st = (st1, Fulfilled ["plugins"; "foo"]))
    by (vm_compute; reflexivity).
  assert (H2 : Fs.linkless (tree st) = true) by (vm_compute; reflexivity).
  assert (H3 : apart ["plugins"; "foo"] ["work"; "foo"])
    by (apply (bool_decide_unpack (apart _ _)); vm_compute; exact I).
  destruct (copyPlugin_replaces_and_repeats _ _ _ _ _ H1 H2 H3) as [Hin Hagain].
  split; [|split; [|exact Hagain]].
  - rewrite Hin by (by exists ["stale.js"]). vm_compute. reflexivity.
  - rewrite Hin by (by exists ["www"; "foo.js"]). vm_compute. reflexivity.
Defined.
(** C3, as stated, fails when the source is the final directory itself: the
    first call succeeds and leaves the directory without its descriptor, and
    the second call, with the same arguments, is rejected. *)
Lemma copyPlugin_twice_counterexample :
  let t := {[ ["plugins"] := Dir;
              ["plugins"; "foo"] := Dir;
              ["plugins"; "foo"; "plugin.xml"] := File (Manifest "foo" "1.0");
              ["plugins"; "foo"; "www"] := Dir;
              ["plugins"; "foo"; "www"; "foo.js"] := File (Data "exports.foo = 1") ]} in
  let st := mkState t None ∅ [] in
  let r1 := copyPlugin ["plugins"; "foo"] "plugins" false st in
  r1.2 = Fulfilled ["plugins"; "foo"]
  ∧ tree r1.1 !! ["plugins"; "foo"; "plugin.xml"] = None
  ∧ (copyPlugin ["plugins"; "foo"] "plugins" false r1.1).2
    = Rejected (DescriptorError ["plugins"; "foo"]).
Proof. vm_compute. repeat split. Qed.

(** ** Resolution of a reference that is not a git URL: C1, C7 *)

Lemma copyPlugin_fulfilled (d : path) (plugins_dir : string) (lnk : bool)
    (st st' : State) (dest : path) :
  copyPlugin d plugins_dir lnk st = (st', Fulfilled dest) →
  ∃ p, new_PluginInfo (tree st) d = Some p
       ∧ dest = Path.join plugins_dir (id p)
       ∧ tree st' = (if lnk then Fs.symlinkSync d dest (Fs.rm_rf dest (tree st))
                     else Fs.cp_R d dest (Fs.mkdir_p dest (Fs.rm_rf dest (tree st))))
       ∧ fetch_json st' = <[dest := SourceLocal d]> (fetch_json st)
       ∧ calls st' = calls st ∧ localPlugins st' = localPlugins st.
Proof.
  unfold copyPlugin. destruct (new_PluginInfo (tree st) d) as [p|]; [|done].
  intros [= <- <-]. exists p. by destruct lnk.
Qed.

(** What a copy leaves at the final directory. *)
Lemma copyPlugin_copy_of (d : path) (plugins_dir : string) (st st' : State) (dest : path) :
  copyPlugin d plugins_dir false st = (st', Fulfilled dest) →
  Fs.linkless (tree st) = true →
  apart dest d →
  copy_of (tree st) d dest (tree st') ∧ Fs.linkless (tree st') = true.
Proof.
  intros (p & _ & _ & Ht & _)%copyPlugin_fulfilled Hll Hap. rewrite Ht. split.
  - intros k Hk.
    rewrite (copied_inside d dest (tree st)); [by rewrite linkless_target|done| |done].
    by rewrite linkless_target.
  - by apply linkless_copied.
Qed.

Lemma copyPlugin_rejected (d : path) (plugins_dir : string) (lnk : bool)
    (st st' : State) (e : error) :
  copyPlugin d plugins_dir lnk st = (st', Rejected e) → st' = st.
Proof.
  unfold copyPlugin. destruct (new_PluginInfo (tree st) d) as [p|]; [done|].
  by intros [= <- _].
Qed.


Lemma then_copy_and_check_fulfilled (plugins_dir : string) (o : Options) (linkable : bool)
    (st : State) (p : outcome) (st' : State) (o' : Options) (dest : path) :
  then_copy_and_check plugins_dir o linkable st p = (st', o', Fulfilled dest) →
  ∃ d, p = Fulfilled d ∧ o' = set_plugin_src_dir (Some d) o
       ∧ copyPlugin d plugins_dir (link o && linkable) st = (st', Fulfilled dest)
       ∧ checkID (expected_id o) dest st' = None.
Proof.
  unfold then_copy_and_check. destruct p as [d|e]; [|done].
  simpl. destruct (copyPlugin d plugins_dir _ st) as [st1 [dest1|e]] eqn:Hc; [|done].
  destruct (checkID _ dest1 st1) eqn:Hid; [done|].
  intros [= <- <- <-]. by exists d.
Qed.

Lemma then_copy_and_check_calls (plugins_dir : string) (o : Options) (linkable : bool)
    (st : State) (p : outcome) :
  let r := then_copy_and_check plugins_dir o linkable st p in
  calls r.1.1 = calls st ∧ localPlugins r.1.1 = localPlugins st.
Proof.
  cbv zeta. unfold then_copy_and_check. destruct p as [d|e]; [|done].
  simpl. destruct (copyPlugin d plugins_dir _ st) as [st1 [dest1|e]] eqn:Hc.
  - apply copyPlugin_fulfilled in Hc as (p & _ & _ & _ & _ & Hcalls & Hloc).
    by destruct (checkID _ dest1 st1).
  - by apply copyPlugin_rejected in Hc as ->.
Qed.


Section Resolution.

Variable w : Collaborators.

Lemma without_fragment_network (src : string) :
  looks_like_network_url (Url.parse (without_fragment src)) (without_fragment src)
  = looks_like_network_url (Url.parse src) src.
Proof.
  unfold without_fragment.
  destruct (fragment_of (Url.parse src)) as [result|] eqn:Hfrag; [|done].
  destruct (fragment_of_Some_hash _ _ Hfrag) as [h Hh].
  by apply looks_like_network_url_truncated with h.
Qed.

(** [fetchPlugin] as one run of lines 72 to 136. *)
Lemma fetchPlugin_resolved (δ : ascii) (src plugins_dir : string)
    (o : option Options) (st : State) :
  fetchPlugin w δ src plugins_dir o st
  = fetch_resolved w (Url.parse (without_fragment src)) (without_fragment src) plugins_dir
      (resolved_options δ src o) (entered plugins_dir st).
Proof.
  rewrite fetchPlugin_unfold. unfold without_fragment, resolved_options.
  by destruct (fragment_of (Url.parse src)).
Qed.

End Resolution.



(** C7, as stated, fails for a plugin fetched from the registry: the record
    written beside the final directory has type [local], with the directory
    the registry handed back as its path. *)
Lemma fetchPlugin_registry_provenance_counterexample :
  let w := mkCollaborators
             (λ _ _ t, (<[ ["tmp"; "reg"; "plugin.xml"] := File (Manifest "org.x" "1.0") ]>
                          (<[ ["tmp"; "reg"] := Dir ]> (<[ ["tmp"] := Dir ]> t)),
                        Fulfilled ["tmp"; "reg"]))
             (λ _ _ _ t, (t, Rejected (CollaboratorError "offline")))
             (λ _ _, []) in
  let r := fetchPlugin w ":" "org.x" "plugins" None (mkState ∅ None ∅ []) in
  r.2 = Fulfilled ["plugins"; "org.x"]
  ∧ calls r.1.1 = [CallRegistry ["org.x"]]
  ∧ fetch_json r.1.1 !! ["plugins"; "org.x"] = Some (SourceLocal ["tmp"; "reg"])
  ∧ type_of <$> fetch_json r.1.1 !! ["plugins"; "org.x"] ≠ Some TypeRegistry.
Proof. vm_compute. repeat split; discriminate. Qed.

(** C7 (as amended).  After a successful fetch of a reference that
    [url.parse] reads as it is written, the record beside the final
    directory is, when the reference passes the test for a network URL,
    [{type: git, url, subdir, ref}] with the reference (fragment stripped) and
    the subdirectory and ref the options held when the clone was asked for,
    the clone collaborator having been called; for any other reference it is
    [{type: local, path}] with the source directory as path, be that a local
    path, a hit of the index or the directory the registry handed back.  No
    record has type [registry]. *)
Theorem fetchPlugin_provenance
    (w : Collaborators) (δ : ascii) (src plugins_dir : string)
    (o : option Options) (st st' : State) (o' : Options) (dest : path) :
  Url.verbatim src = true →
  fetchPlugin w δ src plugins_dir o st = (st', o', Fulfilled dest) →
  (if looks_like_network_url (Url.parse src) src
   then fetch_json st' !! dest
        = Some (SourceGit (without_fragment src) (subdir_of (resolved_options δ src o))
                  (git_ref (resolved_options δ src o)))
        ∧ CallClone (without_fragment src) plugins_dir ∈ calls st'
   else ∃ d, plugin_src_dir o' = Some d
             ∧ fetch_json st' !! dest = Some (SourceLocal d))
  ∧ ∀ s, fetch_json st' !! dest = Some s → type_of s ≠ TypeRegistry.
Proof.
  intros _ Hfetch. split; [|by intros []].
  rewrite fetchPlugin_resolved in Hfetch. unfold fetch_resolved in Hfetch.
  rewrite without_fragment_network in Hfetch.
  set (ref := without_fragment src) in *. set (o1 := resolved_options δ src o) in *.
  set (st1 := entered plugins_dir st) in *.
  assert (Hlocal : ∀ linkable st0 p,
            then_copy_and_check plugins_dir o1 linkable st0 p = (st', o', Fulfilled dest) →
            ∃ d, plugin_src_dir o' = Some d ∧ fetch_json st' !! dest = Some (SourceLocal d)).
  { intros linkable st0 p (d & _ & -> & Hc & _)%then_copy_and_check_fulfilled.
    apply copyPlugin_fulfilled in Hc as (pi & _ & _ & _ & Hjson & _).
    exists d. split; [done|]. rewrite Hjson. apply lookup_insert_eq. }
  destruct (looks_like_network_url (Url.parse src) src).
  - destruct (link o1); [done|].
    destruct (clonePluginGit w ref plugins_dir o1 (tree st1)) as [t [d|e]]; [|done].
    destruct (checkID (expected_id o1) d _); [done|].
    injection Hfetch as <- _ <-. simpl. split.
    + apply lookup_insert_eq.
    + apply elem_of_app. right. apply list_elem_of_here.
  - destruct (Fs.existsSync (tree st1) (Path.join ref (subdir_of o1))); [by eapply Hlocal|].
    destruct (localPlugins _ ≫= _); [by eapply Hlocal|].
    destruct (Js.inherited ref); [done|].
    destruct (noregistry o1); [done|].
    destruct (registry_fetch w [ref] (client o1) _) as [t p]. by eapply Hlocal.
Qed.

Lemma fetchPlugin_provenance_witness :
  let w := mkCollaborators
             (λ _ _ t, (t, Rejected (CollaboratorError "offline")))
             (λ _ _ _ t, (<[ ["plugins"; "org.x"; "plugin.xml"] := File (Manifest "org.x" "1.0") ]>
                            (<[ ["plugins"; "org.x"] := Dir ]> t),
                          Fulfilled ["plugins"; "org.x"]))
             (λ _ _, []) in
  let r := fetchPlugin w ":" "https://example.org/x.git#v1:src" "plugins" None
             (mkState ∅ None ∅ []) in
  fetch_json r.1.1 !! ["plugins"; "org.x"]
  = Some (SourceGit "https://example.org/x.git" "src" (Some "v1")).
Proof.
  intros w r.
  assert (H : fetchPlugin w ":" "https://example.org/x.git#v1:src" "plugins" None
                (mkState ∅ None ∅ []) = (r.1.1, r.1.2, Fulfilled ["plugins"; "org.x"]))
    by (vm_compute; reflexivity).
  exact (proj1 (proj1 (fetchPlugin_provenance w ":" "https://example.org/x.git#v1:src"
                         _ _ _ _ _ _ eq_refl H))).
Defined.

(** ** Install and uninstall on the android platform: C2 *)

Module AndroidFacts.

Import Android.

Lemma parent_snoc (d : path) (c : string) : parent (d ++ [c]) = d.
Proof. unfold parent. rewrite reverse_snoc. simpl. apply reverse_involutive. Qed.

Lemma parent_prefix (p : path) : parent p `prefix_of` p.
Proof.
  destruct p as [|c p] using rev_ind; [done|].
  rewrite parent_snoc. by apply prefix_app_r.
Qed.

Lemma parent_not_below (p : path) : ¬ (p ≠ [] ∧ p `prefix_of` parent p).
Proof.
  intros [Hne Hp]. destruct p as [|c p _] using rev_ind; [done|].
  rewrite parent_snoc in Hp. apply prefix_length in Hp.
  rewrite length_app in Hp. simpl in Hp. lia.
Qed.

Lemma empty_dir_spec (t : gmap path node) (d : path) :
  empty_dir t d
  ↔ t !! d = Some Dir ∧ ∀ k, is_Some (t !! k) → d `prefix_of` k → k = d.
Proof.
  unfold empty_dir. rewrite map_Forall_lookup. split; intros [Hd Hall]; (split; [done|]).
  - intros k [n Hk] Hp. destruct (decide (k = d)) as [|Hne]; [done|].
    by destruct (Hall k n Hk).
  - intros k n Hk [Hp Hne]. apply Hne, Hall; eauto.
Qed.

Lemma ancestor_closed_spec (t : gmap path node) :
  ancestor_closed t
  ↔ ∀ k q, is_Some (t !! k) → q ≠ [] → q `prefix_of` k → is_Some (t !! q).
Proof.
  unfold ancestor_closed. rewrite map_Forall_lookup. split.
  - intros H k q [n Hk] Hq Hp. specialize (H k n Hk).
    rewrite Forall_forall in H. by apply H, elem_of_ancestors_and_self.
  - intros H k n Hk. apply Forall_forall. intros q [Hq Hp]%elem_of_ancestors_and_self.
    by apply (H k q).
Qed.

Lemma mkdir_p_subseteq (d : path) (t : gmap path node) : t ⊆ Fs.mkdir_p d t.
Proof. apply map_union_subseteq_l. Qed.

Lemma mkdir_p_existing (d : path) (t : gmap path node) :
  ancestor_closed t → is_Some (t !! d) → Fs.mkdir_p d t = t.
Proof.
  intros Hac Hd. apply map_eq. intros k. rewrite lookup_mkdir_p.
  destruct (t !! k) as [n|] eqn:Hk; [done|].
  rewrite decide_False; [done|]. intros [Hne Hp].
  rewrite ancestor_closed_spec in Hac.
  destruct (Hac d k Hd Hne Hp) as [n Hn]. congruence.
Qed.

Lemma mkdir_p_snoc (d : path) (c : string) (t : gmap path node) :
  t !! (d ++ [c]) = None →
  Fs.mkdir_p (d ++ [c]) t = <[d ++ [c] := Dir]> (Fs.mkdir_p d t).
Proof.
  intros Hq. apply map_eq. intros k.
  rewrite lookup_insert, !lookup_mkdir_p.
  destruct (decide (d ++ [c] = k)) as [<-|Hne].
  - rewrite Hq, decide_True; [done|]. split; [by destruct d|done].
  - destruct (t !! k); [done|].
    destruct (decide (k ≠ [] ∧ k `prefix_of` d)) as [[H1 H2]|Hn].
    + rewrite decide_True; [done|]. split; [done|]. by apply prefix_app_r.
    + rewrite decide_False; [done|]. intros [H1 H2]. apply Hn. split; [done|].
      apply prefix_snoc_inv in H2 as [H2|H2]; [done|]. by destruct Hne.
Qed.

Section Walk.

Variable roots : list path.

Lemma cascade_nil (t : gmap path node) : cascade roots [] t = t.
Proof. done. Qed.

Lemma cascade_snoc (d : path) (c : string) (t : gmap path node) :
  cascade roots (d ++ [c]) t
  = if decide (d ++ [c] ∈ roots) then t
    else if decide (empty_dir t (d ++ [c])) then cascade roots d (delete (d ++ [c]) t)
    else t.
Proof.
  unfold cascade. rewrite reverse_snoc. simpl.
  by rewrite reverse_cons, reverse_involutive.
Qed.

(** The walk never deletes a source root, nor anything that is not a
    directory. *)
Lemma cascade_keeps (d k : path) (t : gmap path node) :
  k ∈ roots ∨ t !! k ≠ Some Dir → cascade roots d t !! k = t !! k.
Proof.
  revert t. induction d as [|c d IH] using rev_ind; intros t Hk; [done|].
  rewrite cascade_snoc.
  destruct (decide (d ++ [c] ∈ roots)) as [Hr|Hr]; [done|].
  destruct (decide (empty_dir t (d ++ [c]))) as [[Hd _]|He]; [|done].
  assert (Hne : d ++ [c] ≠ k) by (intros <-; by destruct Hk).
  rewrite IH.
  - by rewrite lookup_delete_ne.
  - destruct Hk as [?|Hk]; [by left|right]. by rewrite lookup_delete_ne.
Qed.

(** Creating the directories down to [d] and walking upward from [d] gives
    the tree back. *)
Lemma cascade_mkdir_p (d : path) (t : gmap path node) :
  well_formed roots t → cascade roots d (Fs.mkdir_p d t) = t.
Proof.
  intros (Hac & Hne & Hroots).
  induction d as [|c d IH] using rev_ind.
  - rewrite cascade_nil. unfold Fs.mkdir_p. simpl. apply (right_id_L ∅ (∪)).
  - destruct (t !! (d ++ [c])) as [n|] eqn:Hq.
    + rewrite mkdir_p_existing by done. rewrite cascade_snoc.
      destruct (decide (d ++ [c] ∈ roots)); [done|].
      destruct (decide (empty_dir t (d ++ [c]))) as [He|]; [|done].
      unfold no_empty_dir in Hne. rewrite map_Forall_lookup in Hne.
      by destruct (Hne _ _ Hq).
    + rewrite cascade_snoc.
      rewrite decide_False; last first.
      { intros Hr. unfold roots_exist in Hroots. rewrite Forall_forall in Hroots.
        destruct (Hroots _ Hr) as [n Hn]. congruence. }
      rewrite decide_True; last first.
      { apply empty_dir_spec. split.
        - rewrite mkdir_p_snoc by done. apply lookup_insert_eq.
        - intros k [n Hk] Hp. rewrite lookup_mkdir_p in Hk.
          destruct (t !! k) as [n'|] eqn:Htk.
          + rewrite ancestor_closed_spec in Hac.
            destruct (Hac k (d ++ [c])) as [n'' Hn'']; [done|by destruct d|done|congruence].
          + destruct (decide _) as [[_ Hkp]|]; [|done].
            apply prefix_length_eq; [done|]. by apply prefix_length. }
      rewrite mkdir_p_snoc by done. rewrite delete_insert_id; [done|].
      rewrite lookup_mkdir_p.
      destruct (t !! (d ++ [c])) eqn:Hq'; [done|].
      rewrite decide_False; [done|]. intros [_ Hp]. apply prefix_length in Hp.
      rewrite length_app in Hp. simpl in Hp. lia.
Qed.

Lemma uninstall_install_file (f : content * path) (t : gmap path node) :
  well_formed roots t → t !! f.2 = None →
  uninstall_file roots f (install_file f t) = t.
Proof.
  intros Hwf Hf. unfold uninstall_file, install_file.
  rewrite delete_insert_id; [by apply cascade_mkdir_p|].
  rewrite lookup_mkdir_p, Hf. rewrite decide_False; [done|]. apply parent_not_below.
Qed.

Lemma install_file_subseteq (f : content * path) (t : gmap path node) :
  t !! f.2 = None → t ⊆ install_file f t.
Proof.
  intros Hf. unfold install_file. etrans; [apply (mkdir_p_subseteq (parent f.2))|].
  apply insert_subseteq. rewrite lookup_mkdir_p, Hf.
  rewrite decide_False; [done|]. apply parent_not_below.
Qed.

Lemma lookup_install_file (f : content * path) (t : gmap path node) (k : path) :
  install_file f t !! k
  = if decide (f.2 = k) then Some (File f.1)
    else match t !! k with
         | Some n => Some n
         | None => if decide (k ≠ [] ∧ k `prefix_of` parent f.2) then Some Dir else None
         end.
Proof. unfold install_file. by rewrite lookup_insert, lookup_mkdir_p. Qed.

Lemma install_file_ancestor_closed (f : content * path) (t : gmap path node) :
  ancestor_closed t → ancestor_closed (install_file f t).
Proof.
  intros Hac. apply ancestor_closed_spec. intros k q [n Hk] Hq Hp.
  rewrite lookup_install_file in Hk. rewrite lookup_install_file.
  destruct (decide (f.2 = q)); [done|].
  destruct (t !! q) as [nq|] eqn:Htq; [done|].
  assert (Hgoal : q `prefix_of` parent f.2 → is_Some
    (if decide (q ≠ [] ∧ q `prefix_of` parent f.2) then Some Dir else None)).
  { intros ?. by rewrite decide_True. }
  destruct (decide (f.2 = k)) as [<-|Hfk].
  - apply Hgoal. destruct f as [c p]; simpl in *.
    destruct p as [|x p _] using rev_ind; [by apply prefix_nil_inv in Hp|].
    rewrite parent_snoc. apply prefix_snoc_inv in Hp as [Hp|Hp]; [done|congruence].
  - destruct (t !! k) as [nk|] eqn:Htk.
    + rewrite ancestor_closed_spec in Hac.
      destruct (Hac k q) as [? ?]; [done..|congruence].
    + destruct (decide (k ≠ [] ∧ _)) as [[_ Hkp]|]; [|done].
      apply Hgoal. by etrans.
Qed.

Lemma install_file_roots_exist (f : content * path) (t : gmap path node) :
  t !! f.2 = None → roots_exist roots t → roots_exist roots (install_file f t).
Proof.
  intros Hf Hroots. pose proof (install_file_subseteq f t Hf) as Hsub.
  unfold roots_exist in *. rewrite Forall_forall in *. intros r Hr.
  destruct (Hroots r Hr) as [n Hn]. exists n. by apply (lookup_weaken _ _ _ _ Hn).
Qed.

Lemma install_file_no_empty_dir (f : content * path) (t : gmap path node) :
  t !! f.2 = None → no_empty_dir roots t → no_empty_dir roots (install_file f t).
Proof.
  intros Hf Hne. pose proof (install_file_subseteq f t Hf) as Hsub.
  unfold no_empty_dir. apply map_Forall_lookup. intros q n Hq.
  destruct (decide (q ∈ roots)) as [|Hnr]; [by left|right].
  intros [Hd Hall]%empty_dir_spec.
  rewrite lookup_install_file in Hd.
  destruct (decide (f.2 = q)) as [|Hfq]; [done|].
  destruct (decide (q `prefix_of` f.2)) as [Hpre|Hnpre].
  { apply Hfq. apply Hall; [|done].
    rewrite lookup_install_file, decide_True by done. done. }
  destruct (t !! q) as [nq|] eqn:Htq.
  - injection Hd as ->.
    unfold no_empty_dir in Hne. rewrite map_Forall_lookup in Hne.
    destruct (Hne q Dir Htq) as [|Hnot]; [done|]. apply Hnot.
    apply empty_dir_spec. split; [done|]. intros k [nk Hk] Hp. apply Hall; [|done].
    exists nk. by apply (lookup_weaken _ _ _ _ Hk).
  - destruct (decide (q ≠ [] ∧ _)) as [[_ Hqp]|]; [|done].
    apply Hnpre. etrans; [done|apply parent_prefix].
Qed.

Lemma install_file_well_formed (f : content * path) (t : gmap path node) :
  well_formed roots t → t !! f.2 = None → well_formed roots (install_file f t).
Proof.
  intros (Hac & Hne & Hroots) Hf. split; [|split].
  - by apply install_file_ancestor_closed.
  - by apply install_file_no_empty_dir.
  - by apply install_file_roots_exist.
Qed.

Lemma install_file_other (f : content * path) (t : gmap path node) (k : path) :
  apart f.2 k → t !! k = None → install_file f t !! k = None.
Proof.
  intros [H1 H2] Hk. rewrite lookup_install_file, Hk.
  rewrite decide_False by (by intros <-).
  rewrite decide_False; [done|]. intros [_ Hp]. apply H2.
  etrans; [done|apply parent_prefix].
Qed.

(** The files of a plugin, installed in order and reversed in reverse
    order. *)
Lemma uninstall_install_files (l : list (content * path)) (t : gmap path node) :
  well_formed roots t →
  Forall (λ f, t !! f.2 = None) l →
  independent (l.*2) →
  foldr (uninstall_file roots) (foldl (λ t f, install_file f t) t l) l = t.
Proof.
  revert t. induction l as [|f l IH]; intros t Hwf Habs Hind; [done|].
  simpl. apply Forall_cons in Habs as [Hf Habs]. destruct Hind as [Hap Hind].
  rewrite IH.
  - by apply uninstall_install_file.
  - by apply install_file_well_formed.
  - rewrite Forall_forall in Habs. rewrite Forall_forall in Hap.
    apply Forall_forall. intros g Hg. apply install_file_other; [|by apply Habs].
    apply Hap. apply list_elem_of_fmap. by exists g.
  - done.
Qed.

(** *** Without the assumption that no directory is empty *)

Lemma cascade_subseteq (d : path) (t : gmap path node) : cascade roots d t ⊆ t.
Proof.
  revert t. induction d as [|c d IH] using rev_ind; intros t; [done|].
  rewrite cascade_snoc.
  destruct (decide (d ++ [c] ∈ roots)); [done|].
  destruct (decide (empty_dir t (d ++ [c]))); [|done].
  etrans; [apply IH|apply delete_subseteq].
Qed.

Lemma delete_leaf_ancestor_closed (q : path) (t : gmap path node) :
  ancestor_closed t →
  q = [] ∨ (∀ k, is_Some (t !! k) → q `prefix_of` k → k = q) →
  ancestor_closed (delete q t).
Proof.
  rewrite !ancestor_closed_spec. intros Hac Hleaf k q' Hk Hq' Hp.
  apply lookup_delete_is_Some in Hk as [Hne Hk].
  apply lookup_delete_is_Some. split; [|by apply (Hac k)].
  intros <-. destruct Hleaf as [?|Hleaf]; [done|].
  apply Hne. symmetry. by apply Hleaf.
Qed.

Lemma cascade_ancestor_closed (d : path) (t : gmap path node) :
  ancestor_closed t → ancestor_closed (cascade roots d t).
Proof.
  revert t. induction d as [|c d IH] using rev_ind; intros t Hac; [done|].
  rewrite cascade_snoc.
  destruct (decide (d ++ [c] ∈ roots)); [done|].
  destruct (decide (empty_dir t (d ++ [c]))) as [He|]; [|done].
  apply IH, delete_leaf_ancestor_closed; [done|]. right.
  by apply empty_dir_spec in He as [_ ?].
Qed.

Lemma pruned_of_refl (t : gmap path node) : pruned_of roots t t.
Proof. split; [done|]. intros k n Hk Hk'. congruence. Qed.

Lemma pruned_of_trans (t u v : gmap path node) :
  pruned_of roots t u → pruned_of roots u v → pruned_of roots t v.
Proof.
  intros [Hut Htu] [Hvu Huv]. split; [by etrans|].
  intros k n Hk Hv. destruct (u !! k) as [n'|] eqn:Hu.
  - pose proof (lookup_weaken _ _ _ _ Hu Hut). simplify_eq. by apply (Huv k).
  - by apply (Htu k).
Qed.

Lemma cascade_pruned (d : path) (t : gmap path node) :
  pruned_of roots t (cascade roots d t).
Proof.
  split; [apply cascade_subseteq|].
  intros k n Hk Hgone.
  destruct (decide (k ∈ roots)) as [Hr|Hr].
  { rewrite cascade_keeps in Hgone by by left. congruence. }
  split; [|done]. destruct n; [done|..];
    (rewrite cascade_keeps in Hgone by (right; congruence); congruence).
Qed.

(** The walk takes with it every directory that the tree [t] did not have,
    when the tree walked is within [t] with the directories down to [d]
    created, and holds all of them. *)
Lemma cascade_new_dirs (t : gmap path node) (d : path) (u : gmap path node) :
  ancestor_closed t → roots_exist roots t →
  u ⊆ Fs.mkdir_p d t →
  (∀ q, q ≠ [] → q `prefix_of` d → is_Some (u !! q)) →
  ∀ q, q ≠ [] → q `prefix_of` d → t !! q = None → cascade roots d u !! q = None.
Proof.
  intros Hac Hroots. revert u.
  induction d as [|c d IH] using rev_ind; intros u Hsub Hpath q Hq Hp Hnew.
  { by apply prefix_nil_inv in Hp. }
  destruct (t !! (d ++ [c])) as [n|] eqn:Hd.
  { rewrite ancestor_closed_spec in Hac.
    destruct (Hac (d ++ [c]) q) as [? ?]; [done..|congruence]. }
  assert (Hsnoc : d ++ [c] ≠ []) by by destruct d.
  rewrite cascade_snoc.
  rewrite decide_False; last first.
  { intros Hr. unfold roots_exist in Hroots. rewrite Forall_forall in Hroots.
    destruct (Hroots _ Hr) as [n Hn]. congruence. }
  rewrite decide_True; last first.
  { apply empty_dir_spec. split.
    - destruct (Hpath (d ++ [c])) as [n Hn]; [done..|].
      pose proof (lookup_weaken _ _ _ _ Hn Hsub) as Hn'.
      rewrite mkdir_p_snoc, lookup_insert_eq in Hn' by done. congruence.
    - intros k [n Hk] Hdk.
      pose proof (lookup_weaken _ _ _ _ Hk Hsub) as Hk'.
      rewrite lookup_mkdir_p in Hk'.
      destruct (t !! k) as [n'|] eqn:Htk.
      + rewrite ancestor_closed_spec in Hac.
        destruct (Hac k (d ++ [c])) as [? ?]; [done..|congruence].
      + destruct (decide _) as [[_ Hkp]|]; [|done].
        apply prefix_length_eq; [done|]. by apply prefix_length. }
  apply prefix_snoc_inv in Hp as [Hp| ->].
  - apply IH; try done.
    + rewrite mkdir_p_snoc in Hsub by done.
      apply map_subseteq_spec. intros k n Hk.
      apply lookup_delete_Some in Hk as [Hne Hk].
      pose proof (lookup_weaken _ _ _ _ Hk Hsub) as Hk'.
      by rewrite lookup_insert_ne in Hk'.
    + intros q' Hq' Hp'. apply lookup_delete_is_Some. split.
      * intros <-. by apply prefix_snoc_not in Hp'.
      * apply Hpath; [done|]. by apply prefix_app_r.
  - apply eq_None_not_Some. intros [n Hn].
    pose proof (lookup_weaken _ _ _ _ Hn (cascade_subseteq _ _)) as Hn'.
    by rewrite lookup_delete_eq in Hn'.
Qed.

(** One file reversed, on a tree that is the one holding the file less some
    directories. *)
Lemma uninstall_file_pruned (f : content * path) (t u : gmap path node) :
  ancestor_closed t → roots_exist roots t → t !! f.2 = None →
  ancestor_closed u → pruned_of roots (install_file f t) u →
  pruned_of roots t (uninstall_file roots f u)
  ∧ ancestor_closed (uninstall_file roots f u).
Proof.
  intros Hac Hroots Hf Hacu [Hsub Hgone].
  assert (Hfu : u !! f.2 = Some (File f.1)).
  { destruct (u !! f.2) as [n|] eqn:Hu.
    - pose proof (lookup_weaken _ _ _ _ Hu Hsub) as Hu'.
      rewrite lookup_install_file, decide_True in Hu' by done. congruence.
    - destruct (Hgone f.2 (File f.1)); [|done..].
      by rewrite lookup_install_file, decide_True. }
  assert (Hmk : Fs.mkdir_p (parent f.2) t !! f.2 = None).
  { rewrite lookup_mkdir_p, Hf. rewrite decide_False; [done|]. apply parent_not_below. }
  assert (Hsub1 : delete f.2 u ⊆ Fs.mkdir_p (parent f.2) t).
  { apply map_subseteq_spec. intros k n Hk.
    apply lookup_delete_Some in Hk as [Hne Hk].
    pose proof (lookup_weaken _ _ _ _ Hk Hsub) as Hk'.
    unfold install_file in Hk'. by rewrite lookup_insert_ne in Hk'. }
  assert (Hleaf : f.2 = [] ∨ ∀ k, is_Some (u !! k) → f.2 `prefix_of` k → k = f.2).
  { destruct (decide (f.2 = [])) as [|Hnil]; [by left|right].
    intros k [n Hk] Hp. destruct (decide (k = f.2)) as [|Hne]; [done|].
    assert (Hk' : delete f.2 u !! k = Some n) by by rewrite lookup_delete_ne.
    pose proof (lookup_weaken _ _ _ _ Hk' Hsub1) as Hk''.
    rewrite lookup_mkdir_p in Hk''.
    destruct (t !! k) as [n'|] eqn:Htk.
    - rewrite ancestor_closed_spec in Hac.
      destruct (Hac k f.2) as [? ?]; [done..|congruence].
    - destruct (decide _) as [[_ Hkp]|]; [|done].
      exfalso. apply (parent_not_below f.2). split; [done|by etrans]. }
  assert (Hac1 : ancestor_closed (delete f.2 u)) by by apply delete_leaf_ancestor_closed.
  unfold uninstall_file. split; [|by apply cascade_ancestor_closed].
  pose proof (cascade_pruned (parent f.2) (delete f.2 u)) as [Hsub2 Hgone2].
  assert (Hpath : ∀ q, q ≠ [] → q `prefix_of` parent f.2 → is_Some (delete f.2 u !! q)).
  { intros q Hq Hp. apply lookup_delete_is_Some. split.
    - intros <-. by apply (parent_not_below f.2).
    - rewrite ancestor_closed_spec in Hacu. apply (Hacu f.2); [done..|].
      etrans; [done|apply parent_prefix]. }
  split.
  - apply map_subseteq_spec. intros k n Hk.
    pose proof (lookup_weaken _ _ _ _ Hk Hsub2) as Hk1.
    pose proof (lookup_weaken _ _ _ _ Hk1 Hsub1) as Hk2.
    rewrite lookup_mkdir_p in Hk2.
    destruct (t !! k) as [n'|] eqn:Htk; [done|].
    destruct (decide _) as [[Hkne Hkp]|]; [|done].
    rewrite (cascade_new_dirs t (parent f.2) (delete f.2 u)) in Hk; done.
  - intros k n Hk Hnone.
    assert (Hkf : k ≠ f.2) by (intros ->; congruence).
    destruct (delete f.2 u !! k) as [n'|] eqn:Hdk.
    + pose proof (lookup_weaken _ _ _ _ Hdk Hsub1) as Hk1.
      rewrite lookup_mkdir_p, Hk in Hk1. injection Hk1 as ->.
      by apply (Hgone2 k).
    + rewrite lookup_delete_ne in Hdk by done.
      apply (Hgone k); [|done].
      rewrite lookup_install_file, decide_False, Hk by done. done.
Qed.

Lemma uninstall_install_files_pruned (l : list (content * path)) (t : gmap path node) :
  ancestor_closed t → roots_exist roots t →
  Forall (λ f, t !! f.2 = None) l →
  independent (l.*2) →
  pruned_of roots t (foldr (uninstall_file roots) (foldl (λ t f, install_file f t) t l) l)
  ∧ ancestor_closed (foldr (uninstall_file roots) (foldl (λ t f, install_file f t) t l) l).
Proof.
  revert t. induction l as [|f l IH]; intros t Hac Hroots Habs Hind.
  { split; [apply pruned_of_refl|done]. }
  simpl. apply Forall_cons in Habs as [Hf Habs]. destruct Hind as [Hap Hind].
  destruct (IH (install_file f t)) as [Hpr Hacu].
  - by apply install_file_ancestor_closed.
  - by apply install_file_roots_exist.
  - rewrite Forall_forall in Habs. rewrite Forall_forall in Hap.
    apply Forall_forall. intros g Hg. apply install_file_other; [|by apply Habs].
    apply Hap. apply list_elem_of_fmap. by exists g.
  - done.
  - by apply uninstall_file_pruned.
Qed.

(** After install every declared file is at its target. *)
Lemma install_files_present (l : list (content * path)) (t : gmap path node) :
  independent (l.*2) →
  Forall (λ f, foldl (λ t f, install_file f t) t l !! f.2 = Some (File f.1)) l.
Proof.
  assert (Hkeep : ∀ l t k n, Forall (λ g : content * path, g.2 ≠ k) l → t !! k = Some n →
            foldl (λ t f, install_file f t) t l !! k = Some n).
  { clear. intros l. induction l as [|g l IH]; intros t k n Hne Hk; [done|].
    apply Forall_cons in Hne as [Hg Hne]. simpl. apply IH; [done|].
    by rewrite lookup_install_file, decide_False, Hk. }
  revert t. induction l as [|f l IH]; intros t Hind; [done|].
  destruct Hind as [Hap Hind]. simpl. apply Forall_cons. split; [|by apply IH].
  apply Hkeep.
  - rewrite Forall_forall in Hap. apply Forall_forall. intros g Hg Heq.
    destruct (Hap g.2) as [Hne _]; [apply list_elem_of_fmap; by exists g|].
    apply Hne. by rewrite Heq.
  - by rewrite lookup_install_file, decide_True.
Qed.

End Walk.

Lemma filter_added {A} (P : A → Prop) `{∀ x, Decision (P x)} (old added : list A) :
  Forall P old → Forall (λ x, ¬ P x) added → filter P (old ++ added) = old.
Proof.
  intros Hold Hadd. rewrite filter_app.
  replace (filter P added) with (@nil A).
  - rewrite app_nil_r. induction Hold as [|x l Hx Hl IH]; [done|].
    by rewrite filter_cons_True, IH.
  - induction Hadd as [|x l Hx Hl IH]; [done|]. by rewrite filter_cons_False.
Qed.

End AndroidFacts.

(** C2.  On a project the plugin has not touched (in its tree whatever exists
    has its ancestors and the source roots exist; none of the plugin's target
    paths is present and no entry has the key of one of the plugin's
    entries), install followed by uninstall restores both documents, the
    entries added by install being removed by their keys, and restores the
    set of files and their contents: every copied file is deleted, every path
    absent before is absent again, so that no directory created by the
    install remains, the source roots are kept, and so is every directory
    that holds a file of the project.  Only directories that were already
    empty can go, and when the project has none but its roots, the project is
    exactly as before. *)
Theorem uninstall_install_restores
    (roots : list path) (d : Android.Descriptor) (p : Android.Project) :
  Android.untouched roots d p →
  let installed := Android.installPlugin d p in
  let p' := Android.uninstallPlugin roots d installed in
  Android.manifest p' = Android.manifest p
  ∧ Android.registry p' = Android.registry p
  ∧ Forall (λ c, c ∈ Android.manifest installed) (Android.components d)
  ∧ Forall (λ e, e ∈ Android.registry installed) (Android.plugins d)
  ∧ (∀ k n, n ≠ Dir →
       Android.files p' !! k = Some n ↔ Android.files p !! k = Some n)
  ∧ Forall (λ f, Android.files installed !! f.2 = Some (File f.1)
                 ∧ Android.files p' !! f.2 = None)
           (Android.declaredFiles d)
  ∧ (∀ k, Android.files p !! k = None → Android.files p' !! k = None)
  ∧ (∀ r, r ∈ roots → Android.files p' !! r = Android.files p !! r)
  ∧ (∀ k n dir, Android.files p !! k = Some n → n ≠ Dir → dir ≠ [] → dir `prefix_of` k →
       Android.files p' !! dir = Android.files p !! dir)
  ∧ (Android.no_empty_dir roots (Android.files p) → p' = p).
Proof.
  intros (Hac & Hroots & Habs & Hind & Hman & Hreg) installed p'.
  assert (Hm : Android.manifest p' = Android.manifest p).
  { apply AndroidFacts.filter_added; [done|].
    apply Forall_forall. intros c Hc Hnot. apply Hnot.
    apply list_elem_of_fmap. by exists c. }
  assert (Hr : Android.registry p' = Android.registry p).
  { apply AndroidFacts.filter_added; [done|].
    apply Forall_forall. intros e He Hnot. by apply Hnot. }
  destruct (AndroidFacts.uninstall_install_files_pruned roots
              (Android.declaredFiles d) (Android.files p) Hac Hroots Habs Hind)
    as [[Hsub Hgone] Hac'].
  change (foldr _ _ _) with (Android.files p') in Hsub, Hgone, Hac'.
  assert (Hnone : ∀ k, Android.files p !! k = None → Android.files p' !! k = None).
  { intros k Hk. destruct (Android.files p' !! k) as [n|] eqn:Hk'; [|done].
    pose proof (lookup_weaken _ _ _ _ Hk' Hsub). congruence. }
  assert (Hkept : ∀ k n, Android.files p !! k = Some n → n ≠ Dir ∨ k ∈ roots →
            Android.files p' !! k = Some n).
  { intros k n Hk Hn. destruct (Android.files p' !! k) as [n'|] eqn:Hk'.
    - pose proof (lookup_weaken _ _ _ _ Hk' Hsub). congruence.
    - destruct (Hgone k n Hk Hk') as [-> Hnr]. by destruct Hn. }
  split; [done|]. split; [done|].
  split; [apply Forall_forall; intros c Hc; apply elem_of_app; by right|].
  split; [apply Forall_forall; intros e He; apply elem_of_app; by right|].
  split; [|split; [|split; [done|split; [|split]]]].
  - intros k n Hn. split.
    + intros Hk. by apply (lookup_weaken _ _ _ _ Hk Hsub).
    + intros Hk. apply Hkept; auto.
  - pose proof (AndroidFacts.install_files_present (Android.declaredFiles d)
                  (Android.files p) Hind) as Hpres.
    rewrite Forall_forall in Hpres, Habs. apply Forall_forall. intros f Hf.
    split; [by apply Hpres|]. by apply Hnone, Habs.
  - intros r Hr'. unfold Android.roots_exist in Hroots. rewrite Forall_forall in Hroots.
    destruct (Hroots r Hr') as [n Hn]. rewrite Hn. apply Hkept; auto.
  - intros k n dir Hk Hn Hdir Hp.
    rewrite AndroidFacts.ancestor_closed_spec in Hac'.
    destruct (Hac' k dir) as [n' Hn']; [|done..|].
    + exists n. apply Hkept; auto.
    + rewrite Hn'. symmetry. by apply (lookup_weaken _ _ _ _ Hn' Hsub).
  - intros Hne. destruct p as [t m r]. unfold p', installed in *.
    unfold Android.uninstallPlugin, Android.installPlugin in *; simpl in *.
    f_equal; [|done..].
    by apply AndroidFacts.uninstall_install_files.
Qed.

Lemma uninstall_install_restores_witness :
  let activity := "com.phonegap.plugins.childBrowser.ChildBrowser" in
  let project :=
    Android.mkProject
      (list_to_map
         [ (["src"], Dir);
           (["assets"], Dir); (["assets"; "www"], Dir);
           (["assets"; "www"; "index.html"], File (Data "<html/>"));
           (["res"], Dir); (["res"; "xml"], Dir);
           (["res"; "xml"; "config.xml"], File (Data "<cordova/>"));
           (["AndroidManifest.xml"], File (Data "<manifest/>")) ])
      [Android.mkComponent "com.example.Main" "label=app"]
      [("App", "org.apache.cordova.App")] in
  let plugin :=
    Android.mkDescriptor
      [ (Data "childbrowser", ["assets"; "www"; "childbrowser.js"]);
        (Data "class ChildBrowser",
         ["src"; "com"; "phonegap"; "plugins"; "childBrowser"; "ChildBrowser.java"]) ]
      [Android.mkComponent activity "label=ChildBrowser"]
      [("ChildBrowser", activity)] in
  Android.files (Android.installPlugin plugin project)
    !! ["src"; "com"; "phonegap"; "plugins"; "childBrowser"] = Some Dir
  ∧ Android.uninstallPlugin [["src"]] plugin (Android.installPlugin plugin project) = project.
Proof.
  intros activity project plugin.
  split; [vm_compute; reflexivity|].
  assert (H : Android.untouched [["src"]] plugin project)
    by (apply (bool_decide_unpack (Android.untouched _ _ _)); vm_compute; exact I).
  destruct (uninstall_install_restores [["src"]] plugin project H)
    as (_ & _ & _ & _ & _ & _ & _ & _ & _ & Heq).
  apply Heq.
  apply (bool_decide_unpack (Android.no_empty_dir _ _)). vm_compute. exact I.
Defined.

(** ** Further properties of fetch.js *)

(** *** What a call leaves of the state *)

Lemma checkID_tree (expected : option string) (d : path) (st st' : State) :
  tree st' = tree st → checkID expected d st' = checkID expected d st.
Proof. intros H. unfold checkID. by rewrite H. Qed.

Lemma resolved_options_kept (δ : ascii) (src : string) (o : option Options) :
  plugin_src_dir (resolved_options δ src o) = plugin_src_dir (default no_options o)
  ∧ expected_id (resolved_options δ src o) = expected_id (default no_options o)
  ∧ noregistry (resolved_options δ src o) = noregistry (default no_options o)
  ∧ client (resolved_options δ src o) = client (default no_options o)
  ∧ link (resolved_options δ src o) = link (default no_options o).
Proof.
  unfold resolved_options.
  destruct (fragment_of (Url.parse src)) as [[[|a g1] [[|b g2]|]]|]; done.
Qed.

Section Footprint.

Variable w : Collaborators.

(** The git side of line 73: what it leaves of the state. *)
Lemma fetch_resolved_git (uri : Url.t) (src plugins_dir : string) (o : Options) (st : State) :
  looks_like_network_url uri src = true →
  let r := fetch_resolved w uri src plugins_dir o st in
  let c := clonePluginGit w src plugins_dir o (tree st) in
  r.1.2 = o ∧ localPlugins r.1.1 = localPlugins st
  ∧ (link o = true → r = (st, o, Rejected link_unsupported))
  ∧ (link o = false →
     calls r.1.1 = calls st ++ [CallClone src plugins_dir] ∧ tree r.1.1 = c.1
     ∧ match c.2 with
       | Fulfilled d =>
           match checkID (expected_id o) d (set_tree c.1 st) with
           | None => r.2 = Fulfilled d
                     ∧ fetch_json r.1.1
                       = <[d := SourceGit src (subdir_of o) (git_ref o)]> (fetch_json st)
           | Some e => r.2 = Rejected e ∧ fetch_json r.1.1 = fetch_json st
           end
       | Rejected e => r.2 = Rejected e ∧ fetch_json r.1.1 = fetch_json st
       end).
Proof.
  intros Hnet. cbv zeta. unfold fetch_resolved. rewrite Hnet.
  destruct (link o) eqn:Hl; [done|].
  destruct (clonePluginGit w src plugins_dir o (tree st)) as [t [d|e]]; simpl; [|done].
  rewrite (checkID_tree _ _ (set_tree t st) (add_call _ _)) by done.
  by destruct (checkID (expected_id o) d (set_tree t st)).
Qed.

(** The other side: the three states it can run the copy from. *)
Lemma fetch_resolved_local (uri : Url.t) (src plugins_dir : string) (o : Options) (st : State) :
  looks_like_network_url uri src = false →
  let plugin_dir := Path.join src (subdir_of o) in
  let st2 := loadLocalPlugins w (searchpath_array o) st in
  fetch_resolved w uri src plugins_dir o st
  = if Fs.existsSync (tree st) plugin_dir
    then then_copy_and_check plugins_dir o true st (Fulfilled plugin_dir)
    else match localPlugins st2 ≫= (.!! src) with
         | Some pinfo => then_copy_and_check plugins_dir o true st2 (Fulfilled (dir pinfo))
         | None =>
             if Js.inherited src
             then (st2, set_plugin_src_dir None o, Rejected undefined_directory)
             else if noregistry o then (st2, o, Rejected (not_found_locally src))
             else then_copy_and_check plugins_dir o false
                    (add_call (CallRegistry [src])
                       (set_tree (registry_fetch w [src] (client o) (tree st2)).1 st2))
                    (registry_fetch w [src] (client o) (tree st2)).2
         end.
Proof.
  intros Hnet. cbv zeta. unfold fetch_resolved. rewrite Hnet.
  destruct (Fs.existsSync _ _); [done|].
  destruct (localPlugins _ ≫= _); [done|].
  destruct (Js.inherited src); [done|].
  destruct (noregistry o); [done|].
  by destruct (registry_fetch w [src] (client o) _).
Qed.

Lemma loadLocalPlugins_cache (search : list string) (st : State) :
  calls (loadLocalPlugins w search st) = calls st
  ∧ tree (loadLocalPlugins w search st) = tree st
  ∧ fetch_json (loadLocalPlugins w search st) = fetch_json st
  ∧ (is_Some (localPlugins st) → loadLocalPlugins w search st = st)
  ∧ (localPlugins st = None →
     localPlugins (loadLocalPlugins w search st) = Some (index_plugins w (tree st) search)).
Proof.
  unfold loadLocalPlugins. destruct (localPlugins st) eqn:H; simpl.
  - by repeat split.
  - by repeat split.
Qed.

End Footprint.

(** X1.  The cache of local plugins, once built, comes back from every call
    as it went in, whatever search path the call names; a call that finds it
    unbuilt leaves it unbuilt or builds it from its own search path, on the
    tree as it is once [plugins_dir] exists. *)
Theorem fetchPlugin_cache_kept
    (w : Collaborators) (δ : ascii) (src plugins_dir : string)
    (o : option Options) (st : State) :
  let r := fetchPlugin w δ src plugins_dir o st in
  (is_Some (localPlugins st) → localPlugins r.1.1 = localPlugins st)
  ∧ (localPlugins st = None →
     localPlugins r.1.1 = None
     ∨ localPlugins r.1.1
       = Some (index_plugins w (tree (entered plugins_dir st))
                 (searchpath_array (resolved_options δ src o)))).
Proof.
  intros r. subst r. rewrite fetchPlugin_resolved.
  set (ref := without_fragment src). set (o1 := resolved_options δ src o).
  set (st1 := entered plugins_dir st).
  assert (H1 : localPlugins st1 = localPlugins st) by done.
  destruct (looks_like_network_url (Url.parse ref) ref) eqn:Hnet.
  - destruct (fetch_resolved_git w _ _ plugins_dir o1 st1 Hnet) as (_ & -> & _).
    rewrite H1. split; [done|]. intros ->. by left.
  - rewrite (fetch_resolved_local w _ _ plugins_dir o1 st1 Hnet).
    destruct (loadLocalPlugins_cache w (searchpath_array o1) st1)
      as (_ & _ & _ & Hsome & Hnone).
    assert (Hcopy : ∀ linkable st0 p,
              localPlugins (then_copy_and_check plugins_dir o1 linkable st0 p).1.1
              = localPlugins st0)
      by (intros; apply then_copy_and_check_calls).
    rewrite <- H1.
    destruct (Fs.existsSync _ _).
    { rewrite Hcopy. split; [done|]. intros ->. by left. }
    assert (Hrest : localPlugins
      (match localPlugins (loadLocalPlugins w (searchpath_array o1) st1) ≫= (.!! ref) with
       | Some pinfo => then_copy_and_check plugins_dir o1 true
                         (loadLocalPlugins w (searchpath_array o1) st1) (Fulfilled (dir pinfo))
       | None =>
           if Js.inherited ref
           then (loadLocalPlugins w (searchpath_array o1) st1, set_plugin_src_dir None o1,
                 Rejected undefined_directory)
           else if noregistry o1
           then (loadLocalPlugins w (searchpath_array o1) st1, o1,
                 Rejected (not_found_locally ref))
           else then_copy_and_check plugins_dir o1 false
                  (add_call (CallRegistry [ref])
                     (set_tree (registry_fetch w [ref] (client o1)
                                  (tree (loadLocalPlugins w (searchpath_array o1) st1))).1
                        (loadLocalPlugins w (searchpath_array o1) st1)))
                  (registry_fetch w [ref] (client o1)
                     (tree (loadLocalPlugins w (searchpath_array o1) st1))).2
       end).1.1 = localPlugins (loadLocalPlugins w (searchpath_array o1) st1)).
    { destruct (localPlugins _ ≫= _); [apply Hcopy|].
      destruct (Js.inherited ref); [done|].
      destruct (noregistry o1); [done|]. by rewrite Hcopy. }
    rewrite Hrest. split.
    + intros Hs. by rewrite Hsome.
    + intros Hn. right. by apply Hnone.
Qed.

Lemma fetchPlugin_cache_kept_witness :
  let pA := mkPluginInfo "x" "1.0" ["A"; "x"] in
  let w := mkCollaborators (λ _ _ t, (t, Rejected (CollaboratorError "offline")))
                           (λ _ _ _ t, (t, Rejected (CollaboratorError "offline")))
                           (λ _ d, if String.eqb d "B" then [pA] else []) in
  let st := mkState ∅ (Some ∅) ∅ [] in
  let o := mkOptions false None None (SearchpathArray ["B"]) true None None None in
  localPlugins (fetchPlugin w ":" "x" "plugins" (Some o) st).1.1 = Some ∅.
Proof.
  intros pA w st o.
  refine (proj1 (fetchPlugin_cache_kept w ":" "x" "plugins" (Some o) st) _).
  by eexists.
Defined.
(** X2.  A call on a reference that [url.parse] reads as it is written
    reaches at most one collaborator, once: git when the reference passes the
    test for a network URL, the registry otherwise, each with the reference
    as it is once the fragment is stripped. *)
Theorem fetchPlugin_one_collaborator
    (w : Collaborators) (δ : ascii) (src plugins_dir : string)
    (o : option Options) (st : State) :
  Url.verbatim src = true →
  let r := fetchPlugin w δ src plugins_dir o st in
  let ref := without_fragment src in
  calls r.1.1 = calls st
  ∨ (looks_like_network_url (Url.parse src) src = true
     ∧ calls r.1.1 = calls st ++ [CallClone ref plugins_dir])
  ∨ (looks_like_network_url (Url.parse src) src = false
     ∧ calls r.1.1 = calls st ++ [CallRegistry [ref]]).
Proof.
  intros _ r ref. subst r. rewrite fetchPlugin_resolved. fold ref.
  set (o1 := resolved_options δ src o). set (st1 := entered plugins_dir st).
  pose proof (without_fragment_network src) as Hwf. fold ref in Hwf.
  destruct (looks_like_network_url (Url.parse src) src) eqn:Hnet.
  - destruct (fetch_resolved_git w _ _ plugins_dir o1 st1 Hwf) as (_ & _ & Hl & Hc).
    destruct (link o1).
    + left. by rewrite Hl.
    + right. left. split; [done|]. by destruct (Hc eq_refl) as [-> _].
  - rewrite (fetch_resolved_local w _ _ plugins_dir o1 st1 Hwf).
    assert (Hcopy : ∀ linkable st0 p,
              calls (then_copy_and_check plugins_dir o1 linkable st0 p).1.1 = calls st0)
      by (intros; apply then_copy_and_check_calls).
    destruct (loadLocalPlugins_cache w (searchpath_array o1) st1) as (Hcalls & _).
    destruct (Fs.existsSync _ _); [left; by rewrite Hcopy|].
    destruct (localPlugins _ ≫= _); [left; by rewrite Hcopy, Hcalls|].
    destruct (Js.inherited ref); [left; simpl; by rewrite Hcalls|].
    destruct (noregistry o1); [left; simpl; by rewrite Hcalls|].
    right. right. split; [done|]. rewrite Hcopy. simpl. by rewrite Hcalls.
Qed.

Lemma fetchPlugin_one_collaborator_witness :
  let w := mkCollaborators (λ _ _ t, (t, Rejected (CollaboratorError "offline")))
                           (λ _ _ _ t, (t, Rejected (CollaboratorError "offline")))
                           (λ _ _, []) in
  let r := fetchPlugin w ":" "https://example.org/x.git#v1" "plugins" None
             (mkState ∅ None ∅ []) in
  calls r.1.1 = [CallClone "https://example.org/x.git" "plugins"].
Proof.
  intros w r.
  destruct (fetchPlugin_one_collaborator w ":" "https://example.org/x.git#v1" "plugins" None
              (mkState ∅ None ∅ []) eq_refl) as [H|[[_ H]|[H _]]].
  - vm_compute in H. discriminate H.
  - exact H.
  - vm_compute in H. discriminate H.
Defined.



(** *** The identity check as a gate *)

Lemma split_has (c : ascii) (s : string) :
  Js.indexOf c s ≠ (-1)%Z → (2 ≤ List.length (Js.split c s))%nat.
Proof.
  induction s as [|a s IH]; simpl; [done|].
  destruct (Ascii.eqb a c).
  - intros _. simpl. pose proof (split_nonempty c s). lia.
  - destruct (Z.ltb_spec (Js.indexOf c s) 0) as [Hneg|Hpos]; [done|].
    intros _. assert (Hs : Js.indexOf c s ≠ (-1)%Z) by lia.
    specialize (IH Hs). destruct (Js.split c s); simpl in *; lia.
Qed.

(** [checkID] with a plain identifier expected, and with a versioned one. *)
Lemma checkID_plain (e : string) (d : path) (st : State) :
  e ≠ EmptyString → Js.indexOf "@" e = (-1)%Z →
  checkID (Some e) d st
  = match new_PluginInfo (tree st) d with
    | None => Some (DescriptorError d)
    | Some p => if decide (e = id p) then None else Some (identity_mismatch e (id p))
    end.
Proof.
  intros Hne Hat. unfold checkID. destruct e as [|a e]; [done|].
  cbn [Js.truthy Js.or_default negb].
  destruct (new_PluginInfo (tree st) d) as [p|]; [|done].
  by rewrite split_absent.
Qed.

Lemma checkID_versioned (e : string) (d : path) (st : State) :
  Js.indexOf "@" e ≠ (-1)%Z →
  checkID (Some e) d st
  = match new_PluginInfo (tree st) d with
    | None => Some (DescriptorError d)
    | Some p =>
        if decide (e = id p +:+ "@" +:+ version p) then None
        else Some (identity_mismatch e (id p +:+ "@" +:+ version p))
    end.
Proof.
  intros Hat. unfold checkID. destruct e as [|a e]; [done|].
  cbn [Js.truthy Js.or_default negb].
  destruct (new_PluginInfo (tree st) d) as [p|]; [|done].
  pose proof (split_has "@" _ Hat).
  destruct (Nat.ltb_spec 1 (List.length (Js.split "@" (String a e)))); [done|lia].
Qed.

(** X4.  Whatever way the plugin came, a call that is fulfilled has passed
    the identity check on the directory it returns: with a plain identifier
    expected, the descriptor found there has that identifier; with
    [id@version] expected, its identifier and version concatenate to what
    was expected. *)
Theorem fetchPlugin_fulfilled_checked
    (w : Collaborators) (δ : ascii) (src plugins_dir : string)
    (o : option Options) (st st' : State) (o' : Options) (dest : path) :
  fetchPlugin w δ src plugins_dir o st = (st', o', Fulfilled dest) →
  checkID (expected_id (default no_options o)) dest st' = None
  ∧ ∀ e, expected_id (default no_options o) = Some e → e ≠ EmptyString →
      ∃ p, new_PluginInfo (tree st') dest = Some p
           ∧ if decide (Js.indexOf "@" e = (-1)%Z) then id p = e
             else id p +:+ "@" +:+ version p = e.
Proof.
  intros Hfetch.
  assert (Hcheck : checkID (expected_id (default no_options o)) dest st' = None).
  { rewrite fetchPlugin_resolved in Hfetch.
    destruct (resolved_options_kept δ src o) as (_ & <- & _).
    set (ref := without_fragment src) in *. set (o1 := resolved_options δ src o) in *.
    set (st1 := entered plugins_dir st) in *.
    destruct (looks_like_network_url (Url.parse ref) ref) eqn:Hnet.
    - destruct (fetch_resolved_git w _ _ plugins_dir o1 st1 Hnet) as (_ & _ & Hl & Hc).
      rewrite Hfetch in Hl, Hc. cbn [fst snd] in Hl, Hc.
      destruct (link o1); [by specialize (Hl eq_refl)|].
      destruct (Hc eq_refl) as (_ & Htree & Hout).
      destruct (clonePluginGit w ref plugins_dir o1 (tree st1)) as [t [d|e]];
        cbn [fst snd] in *; [|by destruct Hout].
      destruct (checkID (expected_id o1) d (set_tree t st1)) eqn:Hid; [by destruct Hout|].
      destruct Hout as [[= <-] _]. rewrite <- Hid. by apply checkID_tree.
    - rewrite (fetch_resolved_local w _ _ plugins_dir o1 st1 Hnet) in Hfetch.
      assert (Hcopy : ∀ linkable st0 p,
                then_copy_and_check plugins_dir o1 linkable st0 p = (st', o', Fulfilled dest) →
                checkID (expected_id o1) dest st' = None).
      { by intros linkable st0 p (d & _ & _ & _ & ?)%then_copy_and_check_fulfilled. }
      destruct (Fs.existsSync _ _); [by eapply Hcopy|].
      destruct (localPlugins _ ≫= _); [by eapply Hcopy|].
      destruct (Js.inherited ref); [done|].
      destruct (noregistry o1); [done|]. by eapply Hcopy. }
  split; [done|]. intros e He Hne. rewrite He in Hcheck.
  destruct (decide (Js.indexOf "@" e = (-1)%Z)) as [Hat|Hat].
  - rewrite checkID_plain in Hcheck by done.
    destruct (new_PluginInfo (tree st') dest) as [p|]; [|done].
    exists p. split; [done|]. by destruct (decide (e = id p)).
  - rewrite checkID_versioned in Hcheck by done.
    destruct (new_PluginInfo (tree st') dest) as [p|]; [|done].
    exists p. split; [done|]. by destruct (decide (e = _)).
Qed.

Lemma fetchPlugin_fulfilled_checked_witness :
  let w := mkCollaborators
             (λ _ _ t, (<[ ["tmp"; "reg"; "plugin.xml"] := File (Manifest "org.x" "1.0") ]> t,
                        Fulfilled ["tmp"; "reg"]))
             (λ _ _ _ t, (t, Rejected (CollaboratorError "offline")))
             (λ _ _, []) in
  let o := mkOptions false None None SearchpathAbsent false (Some "org.x@1.0") None None in
  let r := fetchPlugin w ":" "org.x@1.0" "plugins" (Some o) (mkState ∅ None ∅ []) in
  checkID (Some "org.x@1.0") ["plugins"; "org.x"] r.1.1 = None.
Proof.
  intros w o r.
  assert (H : fetchPlugin w ":" "org.x@1.0" "plugins" (Some o) (mkState ∅ None ∅ [])
              = (r.1.1, r.1.2, Fulfilled ["plugins"; "org.x"])) by (vm_compute; reflexivity).
  exact (proj1 (fetchPlugin_fulfilled_checked w ":" _ _ _ _ _ _ _ H)).
Defined.
(** *** What the copy touches, and what it carries over *)

Lemma copyPlugin_outside
    (d : path) (plugins_dir : string) (st st' : State) (dest : path) :
  copyPlugin d plugins_dir false st = (st', Fulfilled dest) →
  ∀ k, ¬ dest `prefix_of` k →
     tree st' !! k
     = match tree st !! k with
       | Some n => Some n
       | None => if decide (k ≠ [] ∧ k `prefix_of` dest) then Some Dir else None
       end.
Proof.
  intros (p & _ & _ & Ht & _)%copyPlugin_fulfilled k Hk. rewrite Ht.
  rewrite lookup_cp_R.
  destruct (Fs.below dest k) as [rest|] eqn:Hb; [by apply below_prefix in Hb|].
  simpl. by rewrite lookup_mkdir_p, lookup_rm_rf, decide_False.
Qed.

(** X5.  On a tree without symbolic links a successful [copyPlugin] that
    copies touches the tree only at and below the final directory, apart from
    creating the directories leading to it: whatever existed elsewhere is
    still there, unchanged; the records of the directories elsewhere are the
    ones from before; no collaborator is called and the cache is left
    alone. *)
Theorem copyPlugin_frame
    (d : path) (plugins_dir : string) (st st' : State) (dest : path) :
  copyPlugin d plugins_dir false st = (st', Fulfilled dest) →
  Fs.linkless (tree st) = true →
  (∀ k, ¬ dest `prefix_of` k →
     tree st' !! k
     = match tree st !! k with
       | Some n => Some n
       | None => if decide (k ≠ [] ∧ k `prefix_of` dest) then Some Dir else None
       end)
  ∧ (∀ k n, ¬ dest `prefix_of` k → tree st !! k = Some n → tree st' !! k = Some n)
  ∧ (∀ k, ¬ dest `prefix_of` k → fetch_json st' !! k = fetch_json st !! k)
  ∧ calls st' = calls st ∧ localPlugins st' = localPlugins st.
Proof.
  intros Hcopy _. pose proof (copyPlugin_outside _ _ _ _ _ Hcopy) as Hout.
  apply copyPlugin_fulfilled in Hcopy as (p & _ & _ & _ & Hj & Hc & Hl).
  split; [done|]. split; [|split; [|done]].
  - intros k n Hk Hn. by rewrite Hout, Hn.
  - intros k Hk. rewrite Hj, lookup_insert_ne; [done|]. by intros <-.
Qed.

Lemma copyPlugin_frame_witness :
  let t := {[ ["work"] := Dir;
              ["work"; "foo"] := Dir;
              ["work"; "foo"; "plugin.xml"] := File (Manifest "foo" "1.0");
              ["plugins"] := Dir;
              ["plugins"; "bar"] := Dir;
              ["plugins"; "bar"; "plugin.xml"] := File (Manifest "bar" "2.0") ]} in
  let st := mkState t None ∅ [] in
  tree (copyPlugin ["work"; "foo"] "plugins" false st).1 !! ["plugins"; "bar"; "plugin.xml"]
  = Some (File (Manifest "bar" "2.0")).
Proof.
  intros t st.
  assert (H : copyPlugin ["work"; "foo"] "plugins" false st
              = ((copyPlugin ["work"; "foo"] "plugins" false st).1, Fulfilled ["plugins"; "foo"]))
    by (vm_compute; reflexivity).
  assert (Hll : Fs.linkless (tree st) = true) by (vm_compute; reflexivity).
  destruct (copyPlugin_frame _ _ _ _ _ H Hll) as (_ & Hkeep & _).
  apply Hkeep; [|vm_compute; reflexivity].
  intros [k Hk]. discriminate Hk.
Defined.

Lemma copyPlugin_descriptor_read
    (src : path) (plugins_dir : string) (st st' : State) (dest : path) (p : PluginInfo) :
  copyPlugin src plugins_dir false st = (st', Fulfilled dest) →
  new_PluginInfo (tree st) src = Some p →
  Fs.linkless (tree st) = true →
  apart dest src →
  new_PluginInfo (tree st') dest = Some (mkPluginInfo (id p) (version p) dest).
Proof.
  intros Hcopy Hp Hll Hap.
  destruct (copyPlugin_copy_of _ _ _ _ _ Hcopy Hll Hap) as [Hin Hll'].
  unfold new_PluginInfo in *. rewrite linkless_target in * by done.
  rewrite (Hin (dest ++ ["plugin.xml"])) by (by apply prefix_app_r).
  rewrite decide_False; last first.
  { intros Heq. apply (f_equal List.length) in Heq.
    rewrite length_app in Heq. simpl in Heq. lia. }
  rewrite below_app. simpl.
  destruct (tree st !! (src ++ ["plugin.xml"])) as [[|[i v|]|]|]; try done.
  by injection Hp as <-.
Qed.

(** X6.  On a tree without symbolic links, when the source lies neither at
    or below the final directory nor around it, the descriptor read at the
    final directory after a successful copy has the identifier and version of
    the source's, and the final directory is [plugins_dir] joined with that
    identifier. *)
Theorem copyPlugin_descriptor
    (src : path) (plugins_dir : string) (st st' : State)
    (dest : path) (p : PluginInfo) :
  copyPlugin src plugins_dir false st = (st', Fulfilled dest) →
  new_PluginInfo (tree st) src = Some p →
  Fs.linkless (tree st) = true →
  apart dest src →
  dest = Path.join plugins_dir (id p)
  ∧ new_PluginInfo (tree st') dest = Some (mkPluginInfo (id p) (version p) dest).
Proof.
  intros Hcopy Hp Hll Hap.
  split; [|by apply (copyPlugin_descriptor_read _ _ _ _ _ p Hcopy)].
  apply copyPlugin_fulfilled in Hcopy as (p' & Hp' & Hdest & _).
  rewrite Hp in Hp'. by injection Hp' as <-.
Qed.

Lemma copyPlugin_descriptor_witness :
  let t := {[ ["work"] := Dir;
              ["work"; "foo"] := Dir;
              ["work"; "foo"; "plugin.xml"] := File (Manifest "org.foo" "1.0");
              ["plugins"] := Dir ]} in
  let st := mkState t None ∅ [] in
  new_PluginInfo (tree (copyPlugin ["work"; "foo"] "plugins" false st).1) ["plugins"; "org.foo"]
  = Some (mkPluginInfo "org.foo" "1.0" ["plugins"; "org.foo"]).
Proof.
  intros t st.
  assert (H : copyPlugin ["work"; "foo"] "plugins" false st
              = ((copyPlugin ["work"; "foo"] "plugins" false st).1,
                 Fulfilled ["plugins"; "org.foo"]))
    by (vm_compute; reflexivity).
  refine (proj2 (copyPlugin_descriptor _ _ _ _ _
                   (mkPluginInfo "org.foo" "1.0" ["work"; "foo"]) H _ _ _)).
  - vm_compute. reflexivity.
  - vm_compute. reflexivity.
  - apply (bool_decide_unpack (apart _ _)). vm_compute. exact I.
Defined.

(** *** Fetching a local directory *)





(** *** The index *)

(** X9.  Whatever the index holds under an identifier is a descriptor with
    that identifier, listed under one of the directories of the search path;
    every descriptor listed has its identifier in the index; and an
    identifier no listed descriptor carries is absent. *)
Theorem index_plugins_sound
    (w : Collaborators) (t : gmap path node) (search : list string) (x : string) :
  (∀ p, index_plugins w t search !! x = Some p →
     id p = x ∧ ∃ d, d ∈ search ∧ p ∈ loadPluginsDir w t d)
  ∧ (∀ d p, d ∈ search → p ∈ loadPluginsDir w t d →
       is_Some (index_plugins w t search !! id p))
  ∧ ((∀ d p, d ∈ search → p ∈ loadPluginsDir w t d → id p ≠ x) →
     index_plugins w t search !! x = None).
Proof.
  assert (Hin : ∀ p, p ∈ mjoin (loadPluginsDir w t <$> search)
                     ↔ ∃ d, d ∈ search ∧ p ∈ loadPluginsDir w t d).
  { intros p. rewrite list_elem_of_join. split.
    - intros (l & Hp & Hl). apply list_elem_of_fmap in Hl as (d & -> & Hd). eauto.
    - intros (d & Hd & Hp). exists (loadPluginsDir w t d). split; [done|].
      apply list_elem_of_fmap. eauto. }
  split; [|split].
  - intros p Hp. rewrite index_plugins_lookup in Hp.
    apply last_Some in Hp as [l Hl].
    assert (Hmem : p ∈ filter (λ p, id p = x) (mjoin (loadPluginsDir w t <$> search))).
    { rewrite Hl. apply elem_of_app. right. apply list_elem_of_here. }
    apply list_elem_of_filter in Hmem as [Hid Hmem]. split; [done|]. by apply Hin.
  - intros d p Hd Hp. rewrite index_plugins_lookup.
    destruct (last _) eqn:Hlast; [done|]. apply last_None in Hlast.
    assert (Hmem : p ∈ filter (λ q, id q = id p) (mjoin (loadPluginsDir w t <$> search))).
    { apply list_elem_of_filter. split; [done|]. apply Hin. eauto. }
    rewrite Hlast in Hmem. by apply elem_of_nil in Hmem.
  - intros Hnone. rewrite index_plugins_lookup. apply last_None.
    destruct (filter _ _) as [|p l] eqn:Hf; [done|].
    assert (Hmem : p ∈ filter (λ p, id p = x) (mjoin (loadPluginsDir w t <$> search))).
    { rewrite Hf. apply list_elem_of_here. }
    apply list_elem_of_filter in Hmem as [Hid Hmem].
    apply Hin in Hmem as (d & Hd & Hp). by destruct (Hnone d p Hd Hp).
Qed.

Lemma index_plugins_sound_witness :
  let pA := mkPluginInfo "x" "1.0" ["A"; "x"] in
  let w := mkCollaborators (λ _ _ t, (t, Rejected (CollaboratorError "offline")))
                           (λ _ _ _ t, (t, Rejected (CollaboratorError "offline")))
                           (λ _ d, if String.eqb d "A" then [pA] else []) in
  index_plugins w ∅ ["A"; "B"] !! "y" = None.
Proof.
  intros pA w.
  refine (proj2 (proj2 (index_plugins_sound w ∅ ["A"; "B"] "y")) _).
  intros d p Hd Hp.
  apply elem_of_cons in Hd as [->|Hd].
  - apply list_elem_of_singleton in Hp as ->. discriminate.
  - apply list_elem_of_singleton in Hd as ->. by apply elem_of_nil in Hp.
Defined.



(** *** The options as the caller finds them *)

Section OptionsReturned.

Variable w : Collaborators.



End OptionsReturned.




(** *** More on fragments *)


Lemma fetchPlugin_defaults (w : Collaborators) (δ : ascii) (src plugins_dir : string)
    (o : option Options) (st : State) :
  fetchPlugin w δ src plugins_dir (Some (defaults δ o)) st
  = fetchPlugin w δ src plugins_dir o st.
Proof. by rewrite !fetchPlugin_unfold, defaults_idemp. Qed.

(** X12.  In a reference that [url.parse] reads as it is written, a
    fragment without [':'] gives the ref only: [base#ref] is fetched as
    [base] is with [git_ref] set to [ref] and the caller's [subdir] kept, and
    a bare trailing ['#'] is dropped, [base#] being fetched exactly as
    [base]. *)
Theorem fetchPlugin_fragment_ref_only
    (w : Collaborators) (δ : ascii) (base ref plugins_dir : string)
    (o : option Options) (st : State) :
  Url.verbatim base = true →
  Url.verbatim ref = true →
  Js.indexOf "#" base = (-1)%Z →
  Js.indexOf ":" ref = (-1)%Z →
  fragment_of (Url.parse (base +:+ String "#" ref)) = Some (ref, None)
  ∧ (ref ≠ EmptyString →
     fetchPlugin w δ (base +:+ String "#" ref) plugins_dir o st
     = fetchPlugin w δ base plugins_dir
         (Some (set_git_ref (Some ref) (default no_options o))) st)
  ∧ fetchPlugin w δ (base +:+ "#") plugins_dir o st = fetchPlugin w δ base plugins_dir o st.
Proof.
  intros Hvb Hvr Hbase Href.
  assert (Hfrag : ∀ r, Url.verbatim r = true → Js.indexOf ":" r = (-1)%Z →
            fragment_of (Url.parse (base +:+ String "#" r)) = Some (r, None)).
  { intros r Hv Hr. rewrite fragment_of_verbatim.
    - rewrite hash_of_app by done. by apply hash_match_ref_only.
    - rewrite verbatim_app, Hvb. simpl. by rewrite Hv. }
  assert (Hnone : fragment_of (Url.parse base) = None).
  { rewrite fragment_of_verbatim by done. by rewrite hash_of_absent. }
  split; [by apply Hfrag|]. split.
  - intros Hne. rewrite (fetchPlugin_unfold w δ (base +:+ String "#" ref)), Hfrag by done.
    rewrite truncated_app by done.
    rewrite (fetchPlugin_unfold w δ base), Hnone. f_equal.
    by destruct ref.
  - rewrite (fetchPlugin_unfold w δ (base +:+ "#")).
    change (base +:+ "#") with (base +:+ String "#" EmptyString).
    rewrite Hfrag by done. rewrite truncated_app by done.
    by rewrite (fetchPlugin_unfold w δ base), Hnone.
Qed.

Lemma fetchPlugin_fragment_ref_only_witness :
  let w := mkCollaborators (λ _ _ t, (t, Rejected (CollaboratorError "offline")))
                           (λ _ _ _ t, (t, Rejected (CollaboratorError "offline")))
                           (λ _ _, []) in
  let st := mkState ∅ None ∅ [] in
  fetchPlugin w ":" "https://example.org/p.git#" "plugins" None st
  = fetchPlugin w ":" "https://example.org/p.git" "plugins" None st.
Proof.
  intros w st.
  exact (proj2 (proj2 (fetchPlugin_fragment_ref_only w ":" "https://example.org/p.git" ""
                         "plugins" None st eq_refl eq_refl eq_refl eq_refl))).
Defined.





(** *** The identity check on identifiers holding an ['@'] *)

Lemma append_longer (s r : string) (c : ascii) : s ≠ s +:+ String c r.
Proof.
  intros H. apply (f_equal String.length) in H.
  assert (Hlen : ∀ a b, String.length (a +:+ b) = (String.length a + String.length b)%nat).
  { intros a b. induction a as [|x a IH]; simpl; [done|]. by rewrite IH. }
  rewrite Hlen in H. simpl in H. lia.
Qed.

(** X14.  As soon as what is expected holds an ['@'], the check compares it
    with the descriptor's identifier, an ['@'] and its version put together,
    and with nothing else.  So a descriptor whose identifier itself holds an
    ['@'] fails the check when exactly that identifier is expected, and two
    descriptors whose identifier and version concatenate alike are accepted
    alike. *)
Theorem checkID_concatenation (st : State) (d : path) (p : PluginInfo) (e : string) :
  new_PluginInfo (tree st) d = Some p →
  (Js.indexOf "@" e ≠ (-1)%Z →
     (checkID (Some e) d st = None ↔ e = id p +:+ "@" +:+ version p))
  ∧ (Js.indexOf "@" (id p) ≠ (-1)%Z →
     checkID (Some (id p)) d st
     = Some (identity_mismatch (id p) (id p +:+ "@" +:+ version p)))
  ∧ (∀ st' d' p', new_PluginInfo (tree st') d' = Some p' →
       Js.indexOf "@" e ≠ (-1)%Z →
       id p' +:+ "@" +:+ version p' = id p +:+ "@" +:+ version p →
       checkID (Some e) d' st' = checkID (Some e) d st).
Proof.
  intros Hp. split; [|split].
  - intros Hat. rewrite checkID_versioned, Hp by done.
    by destruct (decide (e = id p +:+ "@" +:+ version p)).
  - intros Hat. rewrite checkID_versioned, Hp by done.
    rewrite decide_False; [done|]. apply append_longer.
  - intros st' d' p' Hp' Hat Heq. rewrite !checkID_versioned by done.
    by rewrite Hp, Hp', Heq.
Qed.

Lemma checkID_concatenation_witness :
  let st := mkState {[ ["plugins"; "p"; "plugin.xml"] := File (Manifest "scope@org.x" "1.0") ]}
                    None ∅ [] in
  checkID (Some "scope@org.x") ["plugins"; "p"] st
  = Some (identity_mismatch "scope@org.x" "scope@org.x@1.0").
Proof.
  intros st.
  refine (proj1 (proj2 (checkID_concatenation st ["plugins"; "p"]
                          (mkPluginInfo "scope@org.x" "1.0" ["plugins"; "p"]) "" _)) _).
  - reflexivity.
  - discriminate.
Defined.

(** *** Fetching the same local directory again *)






(** *** The registry and [options.link] *)

Local Abbreviation with_link b o :=
  (mkOptions b (subdir o) (git_ref o) (searchpath o) (noregistry o)
             (expected_id o) (client o) (plugin_src_dir o)).




